(** * raster: path recorder and bounded replay compositor

    A shallow embedding of the Go package [raster] (the variant whose
    [Rasterizer] carries an [Entries] slice) together with the properties
    its specification states about recording and replay.

    Conventions.
    - [float64] is Rocq's primitive binary64 [float]; comparisons and
      arithmetic are the IEEE-754 ones Go uses, NaN included.
    - [int] is a 64-bit two's complement integer, carried as [Z] with the
      wrap-around written out.
    - A method with a pointer receiver is a computation in the monad [M],
      which threads the receiver and records a Go [panic] together with the
      state the panic leaves behind.
    - [golang.org/x/image/vector] and [image/draw] are outside the package;
      the scan-converter is abstracted to its size and the commands it was
      given, and compositing is a parameter of the development. *)

From Stdlib Require Import ZArith List Lia Bool Floats.
From stdpp Require Import base list.
Import ListNotations.

Open Scope Z_scope.

(* ===================================================================== *)
(** ** Machine integers and floats *)
(* ===================================================================== *)

Module GoInt.

Definition min_int : Z := - 2 ^ 63.
Definition max_int : Z := 2 ^ 63 - 1.

(** Two's complement wrap-around of a 64-bit [int]. *)
Definition wrap (z : Z) : Z := (z + 2 ^ 63) mod 2 ^ 64 - 2 ^ 63.

Definition add (a b : Z) : Z := wrap (a + b).

Definition in_range (z : Z) : bool := (min_int <=? z) && (z <=? max_int).

End GoInt.

Module Float64.

Definition is_nan (x : float) : bool := PrimFloat.is_nan x.

(** [x <= y] in the IEEE order; false as soon as one side is NaN. *)
Definition le (x y : float) : Prop := PrimFloat.leb x y = true.

(** The result of an out-of-range or NaN conversion is left to the
    implementation by the Go specification; this is the "integer
    indefinite" value the amd64 conversion instruction produces. *)
Definition int_indefinite : Z := GoInt.min_int.

(** [int(x)]: the fraction is discarded (truncation towards zero). *)
Definition to_int (x : float) : Z :=
  match Prim2SF x with
  | S754_zero _ => 0
  | S754_finite s m e =>
      let mag := Z.shiftl (Z.pos m) e in
      let v := if s then - mag else mag in
      if GoInt.in_range v then v else int_indefinite
  | S754_infinity _ | S754_nan => int_indefinite
  end.

End Float64.

(** A [float32] value, kept as its IEEE description in the binary32 format
    (24 bits of precision, infinities at exponent 128). *)
Record float32 : Type := F32 { f32_val : spec_float }.

(** [float32(x)]: round to the nearest binary32 value, ties to even. *)
Definition to_float32 (x : float) : float32 :=
  F32 match Prim2SF x with
      | S754_finite s m e => binary_normalize 24 128 (cond_Zopp s (Z.pos m)) e s
      | f => f
      end.

(* ===================================================================== *)
(** ** Data model *)
(* ===================================================================== *)

(** [type Operator int] with the [iota] constants. *)
Definition Operator : Type := Z.
Definition bogus : Operator := 0.
Definition moveto : Operator := 1.
Definition lineto : Operator := 2.
Definition cubeto : Operator := 3.

Record Segment : Type := mkSegment {
  Op : Operator;
  Args : list float
}.

Record Entry : Type := mkEntry {
  Closed : bool;
  Path : list Segment;
  MinX : float;
  MaxX : float;
  MinY : float;
  MaxY : float
}.

Definition set_Closed (b : bool) (e : Entry) : Entry :=
  mkEntry b (Path e) (MinX e) (MaxX e) (MinY e) (MaxY e).
Definition set_Path (p : list Segment) (e : Entry) : Entry :=
  mkEntry (Closed e) p (MinX e) (MaxX e) (MinY e) (MaxY e).
Definition set_MinX (a : float) (e : Entry) : Entry :=
  mkEntry (Closed e) (Path e) a (MaxX e) (MinY e) (MaxY e).
Definition set_MaxX (a : float) (e : Entry) : Entry :=
  mkEntry (Closed e) (Path e) (MinX e) a (MinY e) (MaxY e).
Definition set_MinY (a : float) (e : Entry) : Entry :=
  mkEntry (Closed e) (Path e) (MinX e) (MaxX e) a (MaxY e).
Definition set_MaxY (a : float) (e : Entry) : Entry :=
  mkEntry (Closed e) (Path e) (MinX e) (MaxX e) (MinY e) a.

(* ===================================================================== *)
(** ** The external scan-converter, [golang.org/x/image/vector] *)
(* ===================================================================== *)

Module vector.

Inductive Cmd : Type :=
| CMoveTo (x y : float32)
| CLineTo (x y : float32)
| CCubeTo (a b c d e f : float32)
| CClosePath.

(** What the package can observe of a [*vector.Rasterizer]: the size it
    was last reset to and the commands it received since. *)
Record Rasterizer : Type := mkRasterizer {
  size : Z * Z;
  cmds : list Cmd
}.

Definition NewRasterizer (w h : Z) : Rasterizer := mkRasterizer (w, h) [].
Definition Reset (z : Rasterizer) (w h : Z) : Rasterizer := mkRasterizer (w, h) [].
Definition push (c : Cmd) (z : Rasterizer) : Rasterizer :=
  mkRasterizer (size z) (cmds z ++ [c]).
Definition MoveTo (z : Rasterizer) (x y : float32) := push (CMoveTo x y) z.
Definition LineTo (z : Rasterizer) (x y : float32) := push (CLineTo x y) z.
Definition CubeTo (z : Rasterizer) (a b c d e f : float32) :=
  push (CCubeTo a b c d e f) z.
Definition ClosePath (z : Rasterizer) := push CClosePath z.

End vector.

Module image.

Record Point : Type := mkPoint { X : Z; Y : Z }.
Record Rectangle : Type := mkRectangle { Min : Point; Max : Point }.

Definition ZP : Point := mkPoint 0 0.

(** [image.Rect]: the corners are put in order. *)
Definition Rect (x0 y0 x1 y1 : Z) : Rectangle :=
  let '(x0, x1) := if x1 <? x0 then (x1, x0) else (x0, x1) in
  let '(y0, y1) := if y1 <? y0 then (y1, y0) else (y0, y1) in
  mkRectangle (mkPoint x0 y0) (mkPoint x1 y1).

End image.

(* ===================================================================== *)
(** ** Panics and the receiver monad *)
(* ===================================================================== *)

Inductive panic : Type :=
| IndexOutOfRange                         (* runtime error: index out of range *)
| NilDereference                          (* runtime error: nil pointer dereference *)
| InvalidArgCount (n : Z) (op : Operator) (* "invalid arg count n for op" *)
| UnsupportedOp (op : Operator).          (* "unsupported Op=op" *)

(** The outcome of running a method: it returns, or it panics; in both
    cases the state carries every write done up to that point. *)
Inductive result (S A : Type) : Type :=
| Ok (a : A) (s : S)
| Panic (p : panic) (s : S).
Arguments Ok {S A} a s.
Arguments Panic {S A} p s.

Definition M (S A : Type) : Type := S -> result S A.

Definition ret {S A} (a : A) : M S A := fun s => Ok a s.
Definition bind {S A B} (c : M S A) (k : A -> M S B) : M S B :=
  fun s => match c s with
           | Ok a s' => k a s'
           | Panic p s' => Panic p s'
           end.
Definition get {S} : M S S := fun s => Ok s s.
Definition put {S} (s : S) : M S unit := fun _ => Ok tt s.
Definition throw {S A} (p : panic) : M S A := fun s => Panic p s.

Notation "x <- c ;; k" := (bind c (fun x => k))
  (at level 90, c at next level, right associativity).
Notation "c ;;; k" := (bind c (fun _ => k))
  (at level 90, right associativity).

Definition state_of {S A} (r : result S A) : S :=
  match r with Ok _ s => s | Panic _ s => s end.

Definition panic_of {S A} (r : result S A) : option panic :=
  match r with Ok _ _ => None | Panic p _ => Some p end.

(** [for _, x := range l { body }]. *)
Fixpoint for_range {S A} (l : list A) (body : A -> M S unit) : M S unit :=
  match l with
  | [] => ret tt
  | x :: l' => body x ;;; for_range l' body
  end.

(** [a[i]] on a slice: a run-time panic outside [0 <= i < len(a)]. *)
Definition index {S A} (a : list A) (i : Z) : M S A :=
  if i <? 0 then throw IndexOutOfRange
  else match a !! Z.to_nat i with
       | Some v => ret v
       | None => throw IndexOutOfRange
       end.

Definition len {A} (a : list A) : Z := Z.of_nat (length a).

(* ===================================================================== *)
(** ** The recorder *)
(* ===================================================================== *)

Record Rasterizer : Type := mkRasterizer {
  R : option vector.Rasterizer;
  Entries : list Entry
}.

Definition set_R (z : vector.Rasterizer) (r : Rasterizer) : Rasterizer :=
  mkRasterizer (Some z) (Entries r).
Definition set_Entries (es : list Entry) (r : Rasterizer) : Rasterizer :=
  mkRasterizer (R r) es.

Definition NewRasterizer (w h : Z) : Rasterizer :=
  mkRasterizer (Some (vector.NewRasterizer w h)) [].

(** [r.R.Reset(w, h)]; the method dereferences [r.R] unconditionally. *)
Definition Reset (w h : Z) : M Rasterizer unit :=
  r <- get ;;
  match R r with
  | None => throw NilDereference
  | Some z => put (set_R (vector.Reset z w h) r)
  end.

(** Read of [r.Entries[n]]. *)
Definition entry_at (n : Z) : M Rasterizer Entry :=
  r <- get ;; index (Entries r) n.

(** Write to a field of [r.Entries[n]]. *)
Definition update_entry (n : Z) (f : Entry -> Entry) : M Rasterizer unit :=
  _ <- entry_at n ;;
  r <- get ;;
  put (set_Entries (alter f (Z.to_nat n) (Entries r)) r).

(** [r.Entries = append(r.Entries, e)]. *)
Definition append_entry (e : Entry) : M Rasterizer unit :=
  r <- get ;; put (set_Entries (Entries r ++ [e]) r).

(** The loop of [extend], [for ; i < len(args); i += 2]: [rest] is
    [args[i:]], so the guard holds exactly when [rest] is not empty and
    [args[i+1]] is out of range exactly when [rest] has one element. *)
Fixpoint extend_loop (n : Z) (rest : list float) : M Rasterizer unit :=
  match rest with
  | [] => ret tt
  | a :: rest1 =>
      e <- entry_at n ;;
      (if PrimFloat.ltb a (MinX e) then update_entry n (set_MinX a)
       else
         e <- entry_at n ;;
         if PrimFloat.ltb (MaxX e) a then update_entry n (set_MaxX a)
         else ret tt) ;;;
      match rest1 with
      | [] => throw IndexOutOfRange
      | b :: rest2 =>
          e <- entry_at n ;;
          (if PrimFloat.ltb b (MinY e) then update_entry n (set_MinY b)
           else
             e <- entry_at n ;;
             if PrimFloat.ltb (MaxY e) b then update_entry n (set_MaxY b)
             else ret tt) ;;;
          extend_loop n rest2
      end
  end.

Definition extend (op : Operator) (args : list float) : M Rasterizer unit :=
  r <- get ;;
  match R r with
  | Some _ => ret tt
  | None =>
      let n := len (Entries r) - 1 in
      fresh <- (if n <? 0 then ret true
                else e <- entry_at n ;; ret (Closed e)) ;;
      n' <- (if fresh : bool then
               a0 <- index args 0 ;;
               a1 <- index args 1 ;;
               append_entry (mkEntry false [] a0 a0 a1 a1) ;;;
               extend_loop (n + 1) (drop 2 args) ;;;
               ret (n + 1)
             else
               extend_loop n args ;;;
               ret n) ;;
      update_entry n' (fun e => set_Path (Path e ++ [mkSegment op args]) e)
  end.

(** The forwarding half of a command: [if r.R != nil { r.R.f(...) }]. *)
Definition forward (f : vector.Rasterizer -> vector.Rasterizer) : M Rasterizer unit :=
  r <- get ;;
  match R r with
  | Some z => put (set_R (f z) r)
  | None => ret tt
  end.

Definition MoveTo (x y : float) : M Rasterizer unit :=
  extend moveto [x; y] ;;;
  forward (fun z => vector.MoveTo z (to_float32 x) (to_float32 y)).

Definition LineTo (x y : float) : M Rasterizer unit :=
  extend lineto [x; y] ;;;
  forward (fun z => vector.LineTo z (to_float32 x) (to_float32 y)).

Definition CubeTo (a b c d e f : float) : M Rasterizer unit :=
  extend cubeto [a; b; c; d; e; f] ;;;
  forward (fun z => vector.CubeTo z (to_float32 a) (to_float32 b) (to_float32 c)
                                    (to_float32 d) (to_float32 e) (to_float32 f)).

Definition ClosePath : M Rasterizer unit :=
  r <- get ;;
  match R r with
  | Some z => put (set_R (vector.ClosePath z) r)
  | None => update_entry (len (Entries r) - 1) (set_Closed true)
  end.

(* ===================================================================== *)
(** ** The replay compositor *)
(* ===================================================================== *)

Section Replay.

(** The destination [draw.Image], the [color.Color] of the fill, and
    [z.Draw(dst, r, image.NewUniform(col), sp)] of the scan-converter. *)
Variable Image : Type.
Variable Color : Type.
Variable Draw :
  vector.Rasterizer -> Image -> image.Rectangle -> Color -> image.Point -> Image.

(** [Render] reaches two mutable objects: its receiver and the image. *)
Record World : Type := mkWorld {
  recorder : Rasterizer;
  canvas : Image
}.

Definition draw (vr : vector.Rasterizer) (rect : image.Rectangle)
    (col : Color) (sp : image.Point) : M World unit :=
  w <- get ;;
  put (mkWorld (recorder w) (Draw vr (canvas w) rect col sp)).

Definition toX (e : Entry) (x : float) : float32 :=
  to_float32 (1 + x - MinX e)%float.
Definition toY (e : Entry) (y : float) : float32 :=
  to_float32 (1 + y - MinY e)%float.

(** The body of [for _, p := range e.Path]; [vr] is the local converter. *)
Definition replay_segment (e : Entry) (p : Segment) (vr : vector.Rasterizer)
    : M World vector.Rasterizer :=
  let a := Args p in
  if ((Op p =? cubeto) && negb (len a =? 6))
     || (negb (Op p =? cubeto) && negb (len a =? 2))
  then throw (InvalidArgCount (len a) (Op p))
  else if Op p =? moveto then
    a0 <- index a 0 ;; a1 <- index a 1 ;;
    ret (vector.MoveTo vr (toX e a0) (toY e a1))
  else if Op p =? lineto then
    a0 <- index a 0 ;; a1 <- index a 1 ;;
    ret (vector.LineTo vr (toX e a0) (toY e a1))
  else if Op p =? cubeto then
    a0 <- index a 0 ;; a1 <- index a 1 ;; a2 <- index a 2 ;;
    a3 <- index a 3 ;; a4 <- index a 4 ;; a5 <- index a 5 ;;
    ret (vector.CubeTo vr (toX e a0) (toY e a1) (toX e a2) (toY e a3)
                          (toX e a4) (toY e a5))
  else throw (UnsupportedOp (Op p)).

Fixpoint replay_path (e : Entry) (path : list Segment) (vr : vector.Rasterizer)
    : M World vector.Rasterizer :=
  match path with
  | [] => ret vr
  | p :: path' => vr' <- replay_segment e p vr ;; replay_path e path' vr'
  end.

(** The body of [for _, e := range r.Entries]. *)
Definition Render_entry (x y : float) (col : Color) (e : Entry) : M World unit :=
  let wide := Float64.to_int (2 + MaxX e - MinX e)%float in
  let high := Float64.to_int (2 + MaxY e - MinY e)%float in
  let vr := vector.NewRasterizer wide high in
  if negb (Closed e) then ret tt
  else
    vr <- replay_path e (Path e) vr ;;
    let vr := vector.ClosePath vr in
    let ix := Float64.to_int (x + MinX e - 1)%float in
    let iy := Float64.to_int (y + MinY e - 1)%float in
    draw vr (image.Rect ix iy (GoInt.add ix wide) (GoInt.add iy high))
         col image.ZP.

Definition Render (x y : float) (col : Color) : M World unit :=
  w <- get ;;
  for_range (Entries (recorder w)) (Render_entry x y col).

End Replay.

Arguments mkWorld {Image} recorder canvas.
Arguments recorder {Image} w.
Arguments canvas {Image} w.
Arguments Render {Image Color} Draw x y col.
Arguments Render_entry {Image Color} Draw x y col e.
Arguments replay_path {Image} e path vr.
Arguments replay_segment {Image} e p vr.

(* ===================================================================== *)
(** ** The IEEE order, made explicit *)
(* ===================================================================== *)

Module SFOrder.

(** The position of a non-NaN value in the IEEE order, as a key that is
    compared lexicographically; the two zeros share one key. *)
Definition key (f : spec_float) : Z * Z * Z :=
  match f with
  | S754_infinity true => (-2, 0, 0)
  | S754_finite true m e => (-1, - e, - Z.pos m)
  | S754_zero _ => (0, 0, 0)
  | S754_nan => (0, 0, 0)
  | S754_finite false m e => (1, e, Z.pos m)
  | S754_infinity false => (2, 0, 0)
  end.

Definition lex_compare (k1 k2 : Z * Z * Z) : comparison :=
  let '(a1, b1, c1) := k1 in
  let '(a2, b2, c2) := k2 in
  match a1 ?= a2 with
  | Eq => match b1 ?= b2 with Eq => c1 ?= c2 | c => c end
  | c => c
  end.

Definition lex_le (k1 k2 : Z * Z * Z) : Prop := lex_compare k1 k2 <> Gt.

End SFOrder.

(** A float that takes part in the order, that is, any value but NaN. *)
Definition ordered (x : float) : Prop := Float64.is_nan x = false.

(* ===================================================================== *)
(** ** Recording, entry by entry *)
(* ===================================================================== *)

(** One [if a < MinX {..} else if a > MaxX {..}] step of [extend], on the
    entry it updates. *)
Definition merge_x (a : float) (e : Entry) : Entry :=
  if PrimFloat.ltb a (MinX e) then set_MinX a e
  else if PrimFloat.ltb (MaxX e) a then set_MaxX a e
  else e.

Definition merge_y (b : float) (e : Entry) : Entry :=
  if PrimFloat.ltb b (MinY e) then set_MinY b e
  else if PrimFloat.ltb (MaxY e) b then set_MaxY b e
  else e.

(** All the steps of the loop of [extend] over complete pairs. *)
Fixpoint merge_args (rest : list float) (e : Entry) : Entry :=
  match rest with
  | a :: b :: rest2 => merge_args rest2 (merge_y b (merge_x a e))
  | _ => e
  end.

(** A list of whole pairs. *)
Inductive paired {A} : list A -> Prop :=
| paired_nil : paired []
| paired_cons a b l : paired l -> paired (a :: b :: l).

(** What a command does to the entry that is open. *)
Definition absorb (s : Segment) (e : Entry) : Entry :=
  let e' := merge_args (Args s) e in
  set_Path (Path e' ++ [s]) e'.

(** The entry a command starts from the pair [(a0, a1)] it begins with. *)
Definition start (a0 a1 : float) (s : Segment) : Entry :=
  let e' := merge_args (drop 2 (Args s)) (mkEntry false [] a0 a0 a1 a1) in
  set_Path (Path e' ++ [s]) e'.

(** No entry is open: there is none yet, or the most recent one is closed. *)
Definition no_open_entry (es : list Entry) : Prop :=
  match last es with
  | Some e => Closed e = true
  | None => True
  end.

Definition buffered (es : list Entry) : Rasterizer := mkRasterizer None es.
Definition immediate (z : vector.Rasterizer) (es : list Entry) : Rasterizer :=
  mkRasterizer (Some z) es.

(** A call of one of the three path-building methods. *)
Inductive Command : Type :=
| CmdMoveTo (x y : float)
| CmdLineTo (x y : float)
| CmdCubeTo (a b c d e f : float).

Definition issue (c : Command) : M Rasterizer unit :=
  match c with
  | CmdMoveTo x y => MoveTo x y
  | CmdLineTo x y => LineTo x y
  | CmdCubeTo a b c d e f => CubeTo a b c d e f
  end.

Definition record (cs : list Command) : M Rasterizer unit := for_range cs issue.

Definition command_segment (c : Command) : Segment :=
  match c with
  | CmdMoveTo x y => mkSegment moveto [x; y]
  | CmdLineTo x y => mkSegment lineto [x; y]
  | CmdCubeTo a b c d e f => mkSegment cubeto [a; b; c; d; e; f]
  end.

Definition first_pair (c : Command) : float * float :=
  match c with
  | CmdMoveTo x y | CmdLineTo x y => (x, y)
  | CmdCubeTo a b _ _ _ _ => (a, b)
  end.

(** The entry a command starts when none is open, and the entry an open
    one becomes after further commands. *)
Definition begin (c : Command) : Entry :=
  start (fst (first_pair c)) (snd (first_pair c)) (command_segment c).

Definition absorb_all (cs : list Command) (e : Entry) : Entry :=
  fold_left (fun e c => absorb (command_segment c) e) cs e.

(** The x and the y coordinates a command passes, control points included. *)
Definition command_xs (c : Command) : list float :=
  match c with
  | CmdMoveTo x _ | CmdLineTo x _ => [x]
  | CmdCubeTo a _ c _ e _ => [a; c; e]
  end.

Definition command_ys (c : Command) : list float :=
  match c with
  | CmdMoveTo _ y | CmdLineTo _ y => [y]
  | CmdCubeTo _ b _ d _ f => [b; d; f]
  end.

Definition coords_x (cs : list Command) : list float := flat_map command_xs cs.
Definition coords_y (cs : list Command) : list float := flat_map command_ys cs.

Definition command_ordered (c : Command) : Prop :=
  Forall ordered (command_xs c) /\ Forall ordered (command_ys c).

(** [m] is the exact minimum (maximum) of [l]: one of its elements, and
    below (above) each of them. *)
Definition is_min (m : float) (l : list float) : Prop :=
  In m l /\ forall v, In v l -> Float64.le m v.
Definition is_max (m : float) (l : list float) : Prop :=
  In m l /\ forall v, In v l -> Float64.le v m.

Definition exact_box (e : Entry) (xs ys : list float) : Prop :=
  is_min (MinX e) xs /\ is_max (MaxX e) xs /\
  is_min (MinY e) ys /\ is_max (MaxY e) ys.

(** The box contains the point [(x, y)]. *)
Definition box_contains (e : Entry) (x y : float) : Prop :=
  Float64.le (MinX e) x /\ Float64.le x (MaxX e) /\
  Float64.le (MinY e) y /\ Float64.le y (MaxY e).

(* ===================================================================== *)
(** ** Replay, entry by entry *)
(* ===================================================================== *)

(** The 2-or-6 rule: two arguments for a move or a line, six for a cube,
    and no other operator. *)
Definition wellformed (p : Segment) : bool :=
  (((Op p =? moveto) || (Op p =? lineto)) && (len (Args p) =? 2))
  || ((Op p =? cubeto) && (len (Args p) =? 6)).

(** The panic [Render] raises on a segment that breaks the rule. *)
Definition segment_panic (p : Segment) : panic :=
  if ((Op p =? cubeto) && negb (len (Args p) =? 6))
     || (negb (Op p =? cubeto) && negb (len (Args p) =? 2))
  then InvalidArgCount (len (Args p)) (Op p)
  else UnsupportedOp (Op p).

(** The footprint of an entry and where it goes on the image. *)
Definition wide (e : Entry) : Z := Float64.to_int (2 + MaxX e - MinX e)%float.
Definition high (e : Entry) : Z := Float64.to_int (2 + MaxY e - MinY e)%float.
Definition offset_x (x : float) (e : Entry) : Z :=
  Float64.to_int (x + MinX e - 1)%float.
Definition offset_y (y : float) (e : Entry) : Z :=
  Float64.to_int (y + MinY e - 1)%float.

(** A segment in the coordinates of its entry:
    [local_x = 1 + x - MinX], [local_y = 1 + y - MinY]. *)
Definition local_x (e : Entry) (x : float) : float := (1 + x - MinX e)%float.
Definition local_y (e : Entry) (y : float) : float := (1 + y - MinY e)%float.

Definition local_cmd (e : Entry) (p : Segment) : vector.Cmd :=
  let lx v := to_float32 (local_x e v) in
  let ly v := to_float32 (local_y e v) in
  match Args p with
  | [x; y] =>
      if Op p =? moveto then vector.CMoveTo (lx x) (ly y)
      else vector.CLineTo (lx x) (ly y)
  | [a; b; c; d; e'; f] =>
      vector.CCubeTo (lx a) (ly b) (lx c) (ly d) (lx e') (ly f)
  | _ => vector.CClosePath
  end.

(** The converter an entry is replayed into, once every segment is in. *)
Definition local_buffer (e : Entry) : vector.Rasterizer :=
  vector.mkRasterizer (wide e, high e)
    (map (local_cmd e) (Path e) ++ [vector.CClosePath]).

(** The rectangle of the footprint put at the offset. *)
Definition placed (x y : float) (e : Entry) : image.Rectangle :=
  image.mkRectangle
    (image.mkPoint (offset_x x e) (offset_y y e))
    (image.mkPoint (offset_x x e + wide e) (offset_y y e + high e)).

(** The footprint is a proper one and its far corner is an [int]. *)
Definition footprint_fits (x y : float) (e : Entry) : Prop :=
  0 <= wide e /\ 0 <= high e /\
  offset_x x e + wide e <= GoInt.max_int /\
  offset_y y e + high e <= GoInt.max_int.

Section ReplaySpec.

Context {Image Color : Type}.
Variable Draw :
  vector.Rasterizer -> Image -> image.Rectangle -> Color -> image.Point -> Image.

(** Compositing one closed entry whose segments obey the rule. *)
Definition composite (x y : float) (col : Color) (e : Entry) (im : Image) : Image :=
  Draw (local_buffer e) im
       (image.Rect (offset_x x e) (offset_y y e)
                   (GoInt.add (offset_x x e) (wide e))
                   (GoInt.add (offset_y y e) (high e)))
       col image.ZP.

(** What one entry does to the image, or the panic it raises. *)
Definition entry_effect (x y : float) (col : Color) (e : Entry) (im : Image)
    : result Image unit :=
  if Closed e then
    match find (fun p => negb (wellformed p)) (Path e) with
    | Some p => Panic (segment_panic p) im
    | None => Ok tt (composite x y col e im)
    end
  else Ok tt im.

Fixpoint entries_effect (x y : float) (col : Color) (es : list Entry) (im : Image)
    : result Image unit :=
  match es with
  | [] => Ok tt im
  | e :: es' =>
      match entry_effect x y col e im with
      | Ok _ im' => entries_effect x y col es' im'
      | Panic p im' => Panic p im'
      end
  end.

(** The image after every closed entry of [es] is composited, in order. *)
Definition composite_all (x y : float) (col : Color) (es : list Entry) (im : Image)
    : Image :=
  fold_left (fun im e => if Closed e then composite x y col e im else im) es im.

Definition in_world (r : Rasterizer) (res : result Image unit)
    : result (World Image) unit :=
  match res with
  | Ok a im => Ok a (mkWorld r im)
  | Panic p im => Panic p (mkWorld r im)
  end.

End ReplaySpec.

(** A canvas that keeps the [Draw] calls it received, for running [Render]. *)
Module Log.

Definition Color : Type := Z.
Definition Image : Type :=
  list (vector.Rasterizer * image.Rectangle * Color * image.Point).

Definition Draw (z : vector.Rasterizer) (im : Image) (r : image.Rectangle)
    (col : Color) (sp : image.Point) : Image :=
  im ++ [(z, r, col, sp)].

Definition blank : Image := [].

End Log.

(** Sample recorder contents: a closed square, an abandoned path, and a
    closed entry one of whose segments carries the sentinel operator. *)
Module Demo.

Definition square : Entry :=
  mkEntry true
    [mkSegment moveto [-5; -5]%float; mkSegment lineto [5; -5]%float;
     mkSegment lineto [5; 5]%float; mkSegment lineto [-5; 5]%float]
    (-5) 5 (-5) 5.

Definition abandoned : Entry :=
  mkEntry false
    [mkSegment moveto [1; 2]%float; mkSegment lineto [30; 4]%float;
     mkSegment bogus [0]%float]
    1 30 2 4.

Definition broken : Entry :=
  mkEntry true
    [mkSegment moveto [0; 0]%float; mkSegment bogus [1; 1]%float;
     mkSegment lineto [2; 0]%float]
    0 2 0 1.

Definition curve : Entry :=
  mkEntry true
    [mkSegment moveto [1; 2]%float;
     mkSegment cubeto [0; 0; 5; 6; 2; 2.5]%float]
    0 5 0 6.

End Demo.

(* ===================================================================== *)
(** ** The rest of the package *)
(* ===================================================================== *)

From Stdlib Require String.

Module OperatorMethods.
Import String.

(** [func (op Operator) String() string]. *)
Definition String (op : Operator) : string :=
  if op =? moveto then "MoveTo"%string
  else if op =? lineto then "LineTo"%string
  else if op =? cubeto then "CubeTo"%string
  else "invalid"%string.

End OperatorMethods.

(** [type Scriber interface]: the four drawing methods, on a receiver of
    type [S]. *)
Class Scriber (S : Type) : Type := mkScriber {
  scribe_MoveTo : float -> float -> M S unit;
  scribe_LineTo : float -> float -> M S unit;
  scribe_CubeTo : float -> float -> float -> float -> float -> float -> M S unit;
  scribe_ClosePath : M S unit
}.

#[global] Instance Rasterizer_Scriber : Scriber Rasterizer :=
  mkScriber Rasterizer MoveTo LineTo CubeTo ClosePath.

(** The package-level shape functions. Every floating-point operation is
    rounded on its own, as the amd64 compiler does it (no fused
    multiply-add). *)
Module raster.
Local Open Scope float_scope.

(** [const partial = 0.552284749831], as the float64 it is used as. *)
Definition partial : float := 0x1.1ac5111535166p-1.

Definition PointAt {S} `{Scriber S} (x y width : float) : M S unit :=
  let d := 0.5 * width in
  let p := partial * d in
  scribe_MoveTo (x + d) y ;;;
  scribe_CubeTo (x + d) (y + p) (x + p) (y + d) x (y + d) ;;;
  scribe_CubeTo (x - p) (y + d) (x - d) (y + p) (x - d) y ;;;
  scribe_CubeTo (x - d) (y - p) (x - p) (y - d) x (y - d) ;;;
  scribe_CubeTo (x + p) (y - d) (x + d) (y - p) (x + d) y ;;;
  scribe_ClosePath.

Definition LineTo {S} `{Scriber S} (capped : bool)
    (oX oY nX nY width : float) : M S unit :=
  if (oX =? nX) && (oY =? nY) then ret tt
  else
    let dX := nX - oX in
    let dY := nY - oY in
    let d := 0.5 * width / sqrt (dX * dX + dY * dY) in
    let '(dX, dY) := (dX * d, dY * d) in
    scribe_MoveTo (oX - dY) (oY + dX) ;;;
    (if capped then
       scribe_CubeTo (oX - dY - partial * dX) (oY + dX - partial * dY)
                     (oX - dX - partial * dY) (oY - dY + partial * dX)
                     (oX - dX) (oY - dY) ;;;
       scribe_CubeTo (oX - dX + partial * dY) (oY - dY - partial * dX)
                     (oX + dY - partial * dX) (oY - dX - partial * dY)
                     (oX + dY) (oY - dX)
     else scribe_LineTo (oX + dY) (oY - dX)) ;;;
    scribe_LineTo (nX + dY) (nY - dX) ;;;
    (if capped then
       scribe_CubeTo (nX + dY + partial * dX) (nY - dX + partial * dY)
                     (nX + dX + partial * dY) (nY + dY - partial * dX)
                     (nX + dX) (nY + dY) ;;;
       scribe_CubeTo (nX + dX - partial * dY) (nY + dY + partial * dX)
                     (nX - dY + partial * dX) (nY + dX + partial * dY)
                     (nX - dY) (nY + dX)
     else scribe_LineTo (nX - dY) (nY + dX)) ;;;
    scribe_ClosePath.

Definition SquareAt {S} `{Scriber S} (x y width : float) : M S unit :=
  if width <=? 0 then ret tt
  else
    let d := 0.5 * width in
    scribe_MoveTo (x - d) (y - d) ;;;
    scribe_LineTo (x + d) (y - d) ;;;
    scribe_LineTo (x + d) (y + d) ;;;
    scribe_LineTo (x - d) (y + d) ;;;
    scribe_ClosePath.

End raster.

Section DrawAt.

Variable Image : Type.
Variable Color : Type.
Variable Draw :
  vector.Rasterizer -> Image -> image.Rectangle -> Color -> image.Point -> Image.
(** [im.Bounds()]. *)
Variable Bounds : Image -> image.Rectangle.

(** [DrawAt(im, r, x, y, col)]; the state is the image and [r] may be nil. *)
Definition DrawAt (r : option vector.Rasterizer) (x y : float) (col : Color)
    : M Image unit :=
  im <- get ;;
  match r with
  | None => throw NilDereference
  | Some z =>
      put (Draw z im (Bounds im) col
             (image.mkPoint (Float64.to_int x) (Float64.to_int y)))
  end.

End DrawAt.

Arguments DrawAt {Image Color} Draw Bounds r x y col.

(** The rasterizer of [raster.go], which only wraps the scan-converter. *)
Module plain.

Record Rasterizer : Type := mkRasterizer { R : option vector.Rasterizer }.

Definition NewRasterizer (w h : Z) : Rasterizer :=
  mkRasterizer (Some (vector.NewRasterizer w h)).

(** [r.R.f(...)]: a nil [r.R] is dereferenced. *)
Definition on_R (f : vector.Rasterizer -> vector.Rasterizer) : M Rasterizer unit :=
  r <- get ;;
  match R r with
  | None => throw NilDereference
  | Some z => put (mkRasterizer (Some (f z)))
  end.

Definition Reset (w h : Z) : M Rasterizer unit :=
  on_R (fun z => vector.Reset z w h).
Definition MoveTo (x y : float) : M Rasterizer unit :=
  on_R (fun z => vector.MoveTo z (to_float32 x) (to_float32 y)).
Definition LineTo (x y : float) : M Rasterizer unit :=
  on_R (fun z => vector.LineTo z (to_float32 x) (to_float32 y)).
Definition CubeTo (a b c d e f : float) : M Rasterizer unit :=
  on_R (fun z => vector.CubeTo z (to_float32 a) (to_float32 b) (to_float32 c)
                                 (to_float32 d) (to_float32 e) (to_float32 f)).
Definition ClosePath : M Rasterizer unit := on_R vector.ClosePath.

End plain.

#[global] Instance plain_Scriber : Scriber plain.Rasterizer :=
  mkScriber plain.Rasterizer plain.MoveTo plain.LineTo plain.CubeTo plain.ClosePath.

(** *** Sequences of calls *)

(** A call of one of the four [Scriber] methods. *)
Inductive Call : Type :=
| CallCmd (c : Command)
| CallClose.

Definition scribe {S} `{Scriber S} (k : Call) : M S unit :=
  match k with
  | CallCmd (CmdMoveTo x y) => scribe_MoveTo x y
  | CallCmd (CmdLineTo x y) => scribe_LineTo x y
  | CallCmd (CmdCubeTo a b c d e f) => scribe_CubeTo a b c d e f
  | CallClose => scribe_ClosePath
  end.

Definition scribes {S} `{Scriber S} (ks : list Call) : M S unit :=
  for_range ks scribe.

(** What a command does to the entries of a buffered rasterizer. *)
Definition step_command (c : Command) (es : list Entry) : list Entry :=
  match last es with
  | Some e =>
      if Closed e then es ++ [begin c]
      else removelast es ++ [absorb (command_segment c) e]
  | None => [begin c]
  end.

(** What a call does to them; [None] stands for the panic of ClosePath. *)
Definition step_entries (k : Call) (es : list Entry) : option (list Entry) :=
  match k with
  | CallCmd c => Some (step_command c es)
  | CallClose =>
      match last es with
      | Some e => Some (removelast es ++ [set_Closed true e])
      | None => None
      end
  end.

Fixpoint steps (ks : list Call) (es : list Entry) : option (list Entry) :=
  match ks with
  | [] => Some es
  | k :: ks' =>
      match step_entries k es with
      | Some es' => steps ks' es'
      | None => None
      end
  end.

(** What a call makes an immediate rasterizer send to its scan-converter. *)
Definition forwarded (k : Call) : vector.Cmd :=
  match k with
  | CallCmd (CmdMoveTo x y) => vector.CMoveTo (to_float32 x) (to_float32 y)
  | CallCmd (CmdLineTo x y) => vector.CLineTo (to_float32 x) (to_float32 y)
  | CallCmd (CmdCubeTo a b c d e f) =>
      vector.CCubeTo (to_float32 a) (to_float32 b) (to_float32 c)
                     (to_float32 d) (to_float32 e) (to_float32 f)
  | CallClose => vector.CClosePath
  end.

Definition call_ordered (k : Call) : Prop :=
  match k with
  | CallCmd c => command_ordered c
  | CallClose => True
  end.

(** The x and the y coordinates held by a segment and by an entry. *)
Fixpoint args_xs (args : list float) : list float :=
  match args with
  | a :: _ :: rest => a :: args_xs rest
  | _ => []
  end.

Fixpoint args_ys (args : list float) : list float :=
  match args with
  | _ :: b :: rest => b :: args_ys rest
  | _ => []
  end.

Definition entry_xs (e : Entry) : list float :=
  flat_map (fun p => args_xs (Args p)) (Path e).
Definition entry_ys (e : Entry) : list float :=
  flat_map (fun p => args_ys (Args p)) (Path e).

(** The box of an entry is the exact one of the coordinates in its path. *)
Definition entry_exact (e : Entry) : Prop :=
  exact_box e (entry_xs e) (entry_ys e).

Definition entry_wellformed (e : Entry) : Prop :=
  forallb wellformed (Path e) = true.

(** Every entry but the most recent one is closed. *)
Definition only_last_open (es : list Entry) : Prop :=
  Forall (fun e => Closed e = true) (removelast es).

(** *** Shapes *)

Inductive Shape : Type :=
| Point (x y width : float)
| Line (capped : bool) (oX oY nX nY width : float)
| Square (x y width : float).

Definition draw_shape {S} `{Scriber S} (sh : Shape) : M S unit :=
  match sh with
  | Point x y width => raster.PointAt x y width
  | Line capped oX oY nX nY width => raster.LineTo capped oX oY nX nY width
  | Square x y width => raster.SquareAt x y width
  end.

(** The inputs on which a shape function returns before its first call. *)
Definition degenerate (sh : Shape) : bool :=
  match sh with
  | Point _ _ _ => false
  | Line _ oX oY nX nY _ => PrimFloat.eqb oX nX && PrimFloat.eqb oY nY
  | Square _ _ width => PrimFloat.leb width 0
  end.

(** The operators of the segments a shape consists of. *)
Definition shape_operators (sh : Shape) : list Operator :=
  match sh with
  | Point _ _ _ => [moveto; cubeto; cubeto; cubeto; cubeto]
  | Line true _ _ _ _ _ => [moveto; cubeto; cubeto; lineto; cubeto; cubeto]
  | Line false _ _ _ _ _ => [moveto; lineto; lineto; lineto]
  | Square _ _ _ => [moveto; lineto; lineto; lineto]
  end.

(** The MoveTo, LineTo and CubeTo calls a shape function makes before its
    ClosePath, with their arguments. *)
Definition shape_commands (sh : Shape) : list Command :=
  match sh with
  | Point x y width =>
      let d := (0.5 * width)%float in
      let p := (raster.partial * d)%float in
      [CmdMoveTo (x + d) y;
       CmdCubeTo (x + d) (y + p) (x + p) (y + d) x (y + d);
       CmdCubeTo (x - p) (y + d) (x - d) (y + p) (x - d) y;
       CmdCubeTo (x - d) (y - p) (x - p) (y - d) x (y - d);
       CmdCubeTo (x + p) (y - d) (x + d) (y - p) (x + d) y]%float
  | Line capped oX oY nX nY width =>
      let dX := (nX - oX)%float in
      let dY := (nY - oY)%float in
      let d := (0.5 * width / sqrt (dX * dX + dY * dY))%float in
      let '(dX, dY) := (dX * d, dY * d)%float in
      let k := raster.partial in
      ([CmdMoveTo (oX - dY) (oY + dX)]
       ++ (if capped then
             [CmdCubeTo (oX - dY - k * dX) (oY + dX - k * dY)
                        (oX - dX - k * dY) (oY - dY + k * dX)
                        (oX - dX) (oY - dY);
              CmdCubeTo (oX - dX + k * dY) (oY - dY - k * dX)
                        (oX + dY - k * dX) (oY - dX - k * dY)
                        (oX + dY) (oY - dX)]
           else [CmdLineTo (oX + dY) (oY - dX)])
       ++ [CmdLineTo (nX + dY) (nY - dX)]
       ++ (if capped then
             [CmdCubeTo (nX + dY + k * dX) (nY - dX + k * dY)
                        (nX + dX + k * dY) (nY + dY - k * dX)
                        (nX + dX) (nY + dY);
              CmdCubeTo (nX + dX - k * dY) (nY + dY + k * dX)
                        (nX - dY + k * dX) (nY + dX + k * dY)
                        (nX - dY) (nY + dX)]
           else [CmdLineTo (nX - dY) (nY + dX)]))%float
  | Square x y width =>
      let d := (0.5 * width)%float in
      [CmdMoveTo (x - d) (y - d); CmdLineTo (x + d) (y - d);
       CmdLineTo (x + d) (y + d); CmdLineTo (x - d) (y + d)]%float
  end.

(** The closed entry a shape leaves in a buffered rasterizer that has no
    open entry. *)
Definition closed_entry (cs : list Command) : list Entry :=
  match cs with
  | [] => []
  | c :: cs' => [set_Closed true (absorb_all cs' (begin c))]
  end.

Definition shape_entries (sh : Shape) : list Entry :=
  if degenerate sh then [] else closed_entry (shape_commands sh).

(** The calls a shape function makes. *)
Definition shape_calls (sh : Shape) : list Call :=
  if degenerate sh then []
  else map CallCmd (shape_commands sh) ++ [CallClose].

(** The scan-converter after it was sent the commands of [ks]. *)
Definition forward_all (ks : list Call) (z : vector.Rasterizer) : vector.Rasterizer :=
  vector.mkRasterizer (vector.size z) (vector.cmds z ++ map forwarded ks).

(** The image and the panic of a run of [Render], without the recorder. *)
Definition canvas_result {Image} (res : result (World Image) unit)
    : result Image unit :=
  match res with
  | Ok a w => Ok a (canvas w)
  | Panic p w => Panic p (canvas w)
  end.

(** Runs the calls of two sequences side by side, one call at a time. *)
Ltac run_calls :=
  repeat match goal with
         | |- context [match ?x with Ok _ _ => _ | Panic _ _ => _ end] =>
             lazymatch x with
             | context [match _ with Ok _ _ => _ | Panic _ _ => _ end] => fail
             | _ => destruct x as [[] ?|? ?]
             end
         end;
  try reflexivity.

(* ===================================================================== *)
(** ** Facts about the IEEE order *)
(* ===================================================================== *)

Module SFOrderFacts.
Import SFOrder.

Lemma SFcompare_key (x y : spec_float) :
  x <> S754_nan -> y <> S754_nan ->
  SFcompare x y = Some (lex_compare (key x) (key y)).
Proof.
  intros Hx Hy.
  destruct x as [sx|sx| |sx mx ex], y as [sy|sy| |sy my ey]; try congruence;
    try (destruct sx); try (destruct sy); cbn; try reflexivity.
  rewrite Z.compare_opp.
  destruct (Z.compare_spec ex ey) as [->|H|H].
  - rewrite Z.compare_refl, Z.compare_opp. cbn.
    rewrite <- Pos.compare_antisym. reflexivity.
  - rewrite (proj2 (Z.compare_gt_iff _ _)) by lia. reflexivity.
  - rewrite (proj2 (Z.compare_lt_iff _ _)) by lia. reflexivity.
Qed.

Lemma lex_le_iff a1 b1 c1 a2 b2 c2 :
  lex_le (a1, b1, c1) (a2, b2, c2) <->
  a1 < a2 \/ (a1 = a2 /\ (b1 < b2 \/ (b1 = b2 /\ c1 <= c2))).
Proof.
  unfold lex_le, lex_compare.
  destruct (Z.compare_spec a1 a2); destruct (Z.compare_spec b1 b2);
    destruct (Z.compare_spec c1 c2); split; intros; try lia; try congruence.
Qed.

Lemma lex_lt_iff a1 b1 c1 a2 b2 c2 :
  lex_compare (a1, b1, c1) (a2, b2, c2) = Lt <->
  a1 < a2 \/ (a1 = a2 /\ (b1 < b2 \/ (b1 = b2 /\ c1 < c2))).
Proof.
  unfold lex_compare.
  destruct (Z.compare_spec a1 a2); destruct (Z.compare_spec b1 b2);
    destruct (Z.compare_spec c1 c2); split; intros; try lia; try congruence.
Qed.

Lemma SFleb_key (x y : spec_float) :
  x <> S754_nan -> y <> S754_nan ->
  SFleb x y = true <-> lex_le (key x) (key y).
Proof.
  intros Hx Hy. unfold SFleb, lex_le. rewrite SFcompare_key by assumption.
  destruct (lex_compare (key x) (key y)); split; congruence.
Qed.

Lemma SFltb_key (x y : spec_float) :
  x <> S754_nan -> y <> S754_nan ->
  SFltb x y = true <-> lex_compare (key x) (key y) = Lt.
Proof.
  intros Hx Hy. unfold SFltb. rewrite SFcompare_key by assumption.
  destruct (lex_compare (key x) (key y)); split; congruence.
Qed.

Lemma SFleb_not_nan (x y : spec_float) :
  SFleb x y = true -> x <> S754_nan /\ y <> S754_nan.
Proof. destruct x, y; cbn; intros; split; congruence. Qed.

Lemma SFltb_not_nan (x y : spec_float) :
  SFltb x y = true -> x <> S754_nan /\ y <> S754_nan.
Proof. destruct x, y; cbn; intros; split; congruence. Qed.

End SFOrderFacts.

Module Float64Facts.
Import Float64 SFOrder SFOrderFacts.

Lemma ordered_spec (x : float) : ordered x <-> Prim2SF x <> S754_nan.
Proof.
  unfold ordered, is_nan, Prim2SF.
  destruct (PrimFloat.is_nan x); [split; congruence|].
  split; [intros _|reflexivity].
  destruct (is_zero x); [congruence|].
  destruct (is_infinity x); [congruence|].
  destruct (Z.frexp x) as [r ex].
  destruct (shr_fexp _ _ _ _ _) as [sh e'].
  destruct (shr_m sh); congruence.
Qed.

Lemma le_ordered (x y : float) : le x y -> ordered x /\ ordered y.
Proof.
  unfold le. rewrite leb_spec, !ordered_spec. apply SFleb_not_nan.
Qed.

Lemma le_refl (x : float) : ordered x -> le x x.
Proof.
  rewrite ordered_spec. intros Hx. unfold le. rewrite leb_spec.
  apply SFleb_key; try assumption.
  destruct (key (Prim2SF x)) as [[a b] c].
  apply lex_le_iff. lia.
Qed.

Lemma le_trans (x y z : float) : le x y -> le y z -> le x z.
Proof.
  intros Hxy Hyz.
  destruct (le_ordered _ _ Hxy) as [Hx Hy], (le_ordered _ _ Hyz) as [_ Hz].
  apply ordered_spec in Hx, Hy, Hz.
  unfold le in *. rewrite leb_spec in *.
  apply SFleb_key in Hxy, Hyz; try assumption.
  apply SFleb_key; try assumption.
  destruct (key (Prim2SF x)) as [[a1 b1] c1],
    (key (Prim2SF y)) as [[a2 b2] c2],
    (key (Prim2SF z)) as [[a3 b3] c3].
  apply lex_le_iff in Hxy, Hyz. apply lex_le_iff. lia.
Qed.

Lemma lt_le (x y : float) : PrimFloat.ltb x y = true -> le x y.
Proof.
  rewrite ltb_spec. intros H.
  destruct (SFltb_not_nan _ _ H) as [Hx Hy].
  unfold le. rewrite leb_spec.
  apply SFltb_key in H; try assumption.
  apply SFleb_key; try assumption.
  unfold lex_le. congruence.
Qed.

Lemma not_lt_le (x y : float) :
  ordered x -> ordered y -> PrimFloat.ltb x y = false -> le y x.
Proof.
  rewrite !ordered_spec, ltb_spec. intros Hx Hy H.
  unfold le. rewrite leb_spec.
  apply SFleb_key; try assumption.
  assert (Hn : lex_compare (key (Prim2SF x)) (key (Prim2SF y)) <> Lt).
  { intros Hlt. apply SFltb_key in Hlt; try assumption. congruence. }
  destruct (key (Prim2SF x)) as [[a1 b1] c1],
    (key (Prim2SF y)) as [[a2 b2] c2].
  rewrite lex_lt_iff in Hn. apply lex_le_iff. lia.
Qed.

End Float64Facts.

(* ===================================================================== *)
(** ** The recorder, step by step *)
(* ===================================================================== *)

Lemma bind_ok {S A B} (c : M S A) (k : A -> M S B) (s s' : S) (a : A) :
  c s = Ok a s' -> bind c k s = k a s'.
Proof. unfold bind. intros ->. reflexivity. Qed.

Lemma bind_get {S B} (k : S -> M S B) (s : S) : (x <- get ;; k x) s = k s s.
Proof. reflexivity. Qed.

Lemma bind_index_0 {S A B} (a : A) (l : list A) (k : A -> M S B) (s : S) :
  (x <- index (a :: l) 0 ;; k x) s = k a s.
Proof. reflexivity. Qed.

Lemma bind_index_1 {S A B} (a b : A) (l : list A) (k : A -> M S B) (s : S) :
  (x <- index (a :: b :: l) 1 ;; k x) s = k b s.
Proof. reflexivity. Qed.

Lemma len_snoc {A} (l : list A) (x : A) : len (l ++ [x]) - 1 = len l.
Proof. unfold len. rewrite length_app. cbn. lia. Qed.

Lemma len_nonneg {A} (l : list A) : (len l <? 0) = false.
Proof. unfold len. apply Z.ltb_ge. lia. Qed.

Lemma index_last {S A} (l : list A) (x : A) (s : S) :
  index (l ++ [x]) (len l) s = Ok x s.
Proof.
  unfold index. rewrite len_nonneg. unfold len.
  rewrite Nat2Z.id, list_lookup_middle by reflexivity. reflexivity.
Qed.

Lemma entry_at_last (z : option vector.Rasterizer) (es : list Entry) (e : Entry) :
  entry_at (len es) (mkRasterizer z (es ++ [e])) = Ok e (mkRasterizer z (es ++ [e])).
Proof. unfold entry_at, bind, get. cbn. apply index_last. Qed.

Lemma update_entry_last (z : option vector.Rasterizer) (es : list Entry)
    (e : Entry) (f : Entry -> Entry) :
  update_entry (len es) f (mkRasterizer z (es ++ [e]))
  = Ok tt (mkRasterizer z (es ++ [f e])).
Proof.
  unfold update_entry, bind. rewrite entry_at_last. cbn.
  unfold put, set_Entries, len. cbn. rewrite Nat2Z.id.
  replace (length es) with (length es + 0)%nat at 1 by lia.
  rewrite alter_app_r. reflexivity.
Qed.

Lemma merge_x_step {B} (z : option vector.Rasterizer) (es : list Entry) (e : Entry)
    (a : float) (k : M Rasterizer B) :
  (e0 <- entry_at (len es) ;;
   (if PrimFloat.ltb a (MinX e0) then update_entry (len es) (set_MinX a)
    else e1 <- entry_at (len es) ;;
         if PrimFloat.ltb (MaxX e1) a then update_entry (len es) (set_MaxX a)
         else ret tt) ;;; k) (mkRasterizer z (es ++ [e]))
  = k (mkRasterizer z (es ++ [merge_x a e])).
Proof.
  rewrite (bind_ok _ _ _ _ _ (entry_at_last z es e)). unfold merge_x.
  destruct (PrimFloat.ltb a (MinX e)).
  - rewrite (bind_ok _ _ _ _ _ (update_entry_last z es e _)). reflexivity.
  - erewrite bind_ok; [reflexivity|].
    rewrite (bind_ok _ _ _ _ _ (entry_at_last z es e)).
    destruct (PrimFloat.ltb (MaxX e) a); [apply update_entry_last|reflexivity].
Qed.

Lemma merge_y_step {B} (z : option vector.Rasterizer) (es : list Entry) (e : Entry)
    (b : float) (k : M Rasterizer B) :
  (e0 <- entry_at (len es) ;;
   (if PrimFloat.ltb b (MinY e0) then update_entry (len es) (set_MinY b)
    else e1 <- entry_at (len es) ;;
         if PrimFloat.ltb (MaxY e1) b then update_entry (len es) (set_MaxY b)
         else ret tt) ;;; k) (mkRasterizer z (es ++ [e]))
  = k (mkRasterizer z (es ++ [merge_y b e])).
Proof.
  rewrite (bind_ok _ _ _ _ _ (entry_at_last z es e)). unfold merge_y.
  destruct (PrimFloat.ltb b (MinY e)).
  - rewrite (bind_ok _ _ _ _ _ (update_entry_last z es e _)). reflexivity.
  - erewrite bind_ok; [reflexivity|].
    rewrite (bind_ok _ _ _ _ _ (entry_at_last z es e)).
    destruct (PrimFloat.ltb (MaxY e) b); [apply update_entry_last|reflexivity].
Qed.

Lemma extend_loop_last (z : option vector.Rasterizer) (es : list Entry)
    (rest : list float) :
  paired rest ->
  forall e,
    extend_loop (len es) rest (mkRasterizer z (es ++ [e]))
    = Ok tt (mkRasterizer z (es ++ [merge_args rest e])).
Proof.
  induction 1 as [|a b rest2 Hp IH]; intros e; [reflexivity|].
  cbn [extend_loop merge_args].
  rewrite merge_x_step, merge_y_step.
  apply IH.
Qed.

Lemma no_open_entry_cases (es : list Entry) :
  no_open_entry es ->
  es = [] \/ exists es0 e, es = es0 ++ [e] /\ Closed e = true.
Proof.
  unfold no_open_entry. destruct es as [|e0 es'] using rev_ind; [left; reflexivity|].
  rewrite last_snoc. intros H. right. eauto.
Qed.

Lemma extend_immediate (op : Operator) (args : list float)
    (z : vector.Rasterizer) (es : list Entry) :
  extend op args (immediate z es) = Ok tt (immediate z es).
Proof. reflexivity. Qed.

Lemma extend_open (op : Operator) (args : list float) (es : list Entry) (e : Entry) :
  Closed e = false -> paired args ->
  extend op args (buffered (es ++ [e]))
  = Ok tt (buffered (es ++ [absorb (mkSegment op args) e])).
Proof.
  intros Hopen Hp. unfold extend, buffered.
  rewrite bind_get. cbn [R Entries].
  rewrite len_snoc, len_nonneg.
  erewrite bind_ok; cycle 1.
  { rewrite (bind_ok _ _ _ _ _ (entry_at_last None es e)). reflexivity. }
  rewrite Hopen.
  erewrite bind_ok; cycle 1.
  { erewrite bind_ok; [reflexivity|]. apply extend_loop_last, Hp. }
  rewrite update_entry_last. reflexivity.
Qed.

Lemma extend_fresh (op : Operator) (a0 a1 : float) (rest : list float)
    (es : list Entry) :
  no_open_entry es -> paired rest ->
  extend op (a0 :: a1 :: rest) (buffered es)
  = Ok tt (buffered (es ++ [start a0 a1 (mkSegment op (a0 :: a1 :: rest))])).
Proof.
  intros Hno Hp. unfold extend, buffered.
  rewrite bind_get. cbn [R Entries].
  assert (Hfresh :
    (if len es - 1 <? 0 then ret true
     else e <- entry_at (len es - 1) ;; ret (Closed e)) (mkRasterizer None es)
    = Ok true (mkRasterizer None es)).
  { destruct (no_open_entry_cases es Hno) as [->|(es0 & e & -> & Hc)]; [reflexivity|].
    rewrite len_snoc, len_nonneg.
    rewrite (bind_ok _ _ _ _ _ (entry_at_last None es0 e)). rewrite <- Hc. reflexivity. }
  rewrite (bind_ok _ _ _ _ _ Hfresh).
  replace (len es - 1 + 1) with (len es) by lia.
  erewrite bind_ok; cycle 1.
  { rewrite bind_index_0, bind_index_1.
    rewrite (bind_ok (append_entry _) _ _ _ _ eq_refl).
    unfold set_Entries. cbn [R Entries].
    erewrite bind_ok; [reflexivity|]. cbn [drop].
    apply extend_loop_last, Hp. }
  rewrite update_entry_last. reflexivity.
Qed.

Lemma forward_buffered (f : vector.Rasterizer -> vector.Rasterizer) (es : list Entry) :
  forward f (buffered es) = Ok tt (buffered es).
Proof. reflexivity. Qed.

Lemma command_paired (c : Command) : paired (Args (command_segment c)).
Proof. destruct c; cbn; repeat constructor. Qed.

Lemma issue_open (c : Command) (es : list Entry) (e : Entry) :
  Closed e = false ->
  issue c (buffered (es ++ [e]))
  = Ok tt (buffered (es ++ [absorb (command_segment c) e])).
Proof.
  intros Hopen.
  destruct c; cbn [issue command_segment]; unfold MoveTo, LineTo, CubeTo;
    (erewrite bind_ok;
     [apply forward_buffered
     |apply extend_open; [exact Hopen|repeat constructor]]).
Qed.

Lemma issue_fresh (c : Command) (es : list Entry) :
  no_open_entry es ->
  issue c (buffered es) = Ok tt (buffered (es ++ [begin c])).
Proof.
  intros Hno.
  destruct c; cbn [issue begin first_pair fst snd command_segment];
    unfold MoveTo, LineTo, CubeTo;
    (erewrite bind_ok;
     [apply forward_buffered
     |apply extend_fresh; [exact Hno|repeat constructor]]).
Qed.

Lemma merge_x_fields (a : float) (e : Entry) :
  Closed (merge_x a e) = Closed e /\ Path (merge_x a e) = Path e /\
  MinY (merge_x a e) = MinY e /\ MaxY (merge_x a e) = MaxY e.
Proof.
  unfold merge_x.
  destruct (PrimFloat.ltb a (MinX e)); [|destruct (PrimFloat.ltb (MaxX e) a)];
    repeat split.
Qed.

Lemma merge_y_fields (b : float) (e : Entry) :
  Closed (merge_y b e) = Closed e /\ Path (merge_y b e) = Path e /\
  MinX (merge_y b e) = MinX e /\ MaxX (merge_y b e) = MaxX e.
Proof.
  unfold merge_y.
  destruct (PrimFloat.ltb b (MinY e)); [|destruct (PrimFloat.ltb (MaxY e) b)];
    repeat split.
Qed.

Lemma merge_args_fields (rest : list float) :
  paired rest ->
  forall e, Closed (merge_args rest e) = Closed e /\ Path (merge_args rest e) = Path e.
Proof.
  induction 1 as [|a b rest2 _ IH]; intros e; [split; reflexivity|].
  cbn [merge_args]. destruct (IH (merge_y b (merge_x a e))) as [-> ->].
  destruct (merge_y_fields b (merge_x a e)) as (-> & -> & _).
  destruct (merge_x_fields a e) as (-> & -> & _). split; reflexivity.
Qed.

Lemma absorb_fields (c : Command) (e : Entry) :
  Closed (absorb (command_segment c) e) = Closed e /\
  Path (absorb (command_segment c) e) = Path e ++ [command_segment c].
Proof.
  unfold absorb. cbn [Closed Path set_Path].
  destruct (merge_args_fields _ (command_paired c) e) as [-> ->].
  split; reflexivity.
Qed.

Lemma begin_fields (c : Command) :
  Closed (begin c) = false /\ Path (begin c) = [command_segment c].
Proof.
  unfold begin, start. cbn [Closed Path set_Path].
  assert (Hp : paired (drop 2 (Args (command_segment c))))
    by (destruct c; cbn; repeat constructor).
  destruct (merge_args_fields _ Hp
              (mkEntry false [] (fst (first_pair c)) (fst (first_pair c))
                       (snd (first_pair c)) (snd (first_pair c)))) as [-> ->].
  split; reflexivity.
Qed.

Lemma absorb_all_fields (cs : list Command) :
  forall e, Closed (absorb_all cs e) = Closed e /\
            Path (absorb_all cs e) = Path e ++ map command_segment cs.
Proof.
  induction cs as [|c cs IH]; intros e; cbn.
  - rewrite app_nil_r. split; reflexivity.
  - fold (absorb_all cs (absorb (command_segment c) e)).
    destruct (IH (absorb (command_segment c) e)) as [-> ->].
    destruct (absorb_fields c e) as [-> ->].
    rewrite <- app_assoc. split; reflexivity.
Qed.

Lemma record_open (cs : list Command) (es : list Entry) :
  forall e, Closed e = false ->
    record cs (buffered (es ++ [e])) = Ok tt (buffered (es ++ [absorb_all cs e])).
Proof.
  induction cs as [|c cs IH]; intros e Hopen; [reflexivity|].
  unfold record. cbn [for_range].
  rewrite (bind_ok _ _ _ _ _ (issue_open c es e Hopen)).
  apply IH. destruct (absorb_fields c e) as [-> _]. exact Hopen.
Qed.

Lemma record_fresh (c : Command) (cs : list Command) (es : list Entry) :
  no_open_entry es ->
  record (c :: cs) (buffered es) = Ok tt (buffered (es ++ [absorb_all cs (begin c)])).
Proof.
  intros Hno. unfold record. cbn [for_range].
  rewrite (bind_ok _ _ _ _ _ (issue_fresh c es Hno)).
  apply record_open, begin_fields.
Qed.

Lemma ClosePath_last (es : list Entry) (e : Entry) :
  ClosePath (buffered (es ++ [e])) = Ok tt (buffered (es ++ [set_Closed true e])).
Proof.
  unfold ClosePath, buffered. rewrite bind_get. cbn [R Entries].
  rewrite len_snoc. apply update_entry_last.
Qed.

(* ===================================================================== *)
(** ** The bounding box *)
(* ===================================================================== *)

Section BoundingBox.
Import Float64Facts.

Lemma is_min_one (a : float) : ordered a -> is_min a [a].
Proof.
  intros Ha. split; [left; reflexivity|].
  intros v [<-|[]]. apply le_refl, Ha.
Qed.

Lemma is_max_one (a : float) : ordered a -> is_max a [a].
Proof.
  intros Ha. split; [left; reflexivity|].
  intros v [<-|[]]. apply le_refl, Ha.
Qed.

Lemma min_le_max (lo hi : float) (l : list float) :
  is_min lo l -> is_max hi l -> Float64.le lo hi.
Proof. intros [Hin _] [_ Hub]. apply Hub, Hin. Qed.

(** One merge step keeps the pair (min, max) exact. *)
Lemma merge_exact (a lo hi : float) (l : list float) :
  ordered a -> is_min lo l -> is_max hi l ->
  is_min (if PrimFloat.ltb a lo then a else lo) (l ++ [a]) /\
  is_max (if PrimFloat.ltb a lo then hi
          else if PrimFloat.ltb hi a then a else hi) (l ++ [a]).
Proof.
  intros Ha Hmin Hmax.
  pose proof (min_le_max _ _ _ Hmin Hmax) as Hlohi.
  destruct (le_ordered _ _ Hlohi) as [Hlo Hhi].
  destruct Hmin as [Hlo_in Hlb], Hmax as [Hhi_in Hub].
  destruct (PrimFloat.ltb a lo) eqn:Hlt.
  - apply lt_le in Hlt. split; split.
    + apply in_or_app. right. left. reflexivity.
    + intros v [Hv|[<-|[]]]%in_app_or; [|apply le_refl, Ha].
      eapply le_trans; [exact Hlt|apply Hlb, Hv].
    + apply in_or_app. left. exact Hhi_in.
    + intros v [Hv|[<-|[]]]%in_app_or; [apply Hub, Hv|].
      eapply le_trans; [exact Hlt|exact Hlohi].
  - apply not_lt_le in Hlt; [|exact Ha|exact Hlo].
    split; [split|].
    + apply in_or_app. left. exact Hlo_in.
    + intros v [Hv|[<-|[]]]%in_app_or; [apply Hlb, Hv|exact Hlt].
    + destruct (PrimFloat.ltb hi a) eqn:Hgt; split.
      * apply in_or_app. right. left. reflexivity.
      * apply lt_le in Hgt.
        intros v [Hv|[<-|[]]]%in_app_or; [|apply le_refl, Ha].
        eapply le_trans; [apply Hub, Hv|exact Hgt].
      * apply in_or_app. left. exact Hhi_in.
      * apply not_lt_le in Hgt; [|exact Hhi|exact Ha].
        intros v [Hv|[<-|[]]]%in_app_or; [apply Hub, Hv|exact Hgt].
Qed.

Lemma merge_x_exact (a : float) (e : Entry) (xs ys : list float) :
  ordered a -> exact_box e xs ys -> exact_box (merge_x a e) (xs ++ [a]) ys.
Proof.
  intros Ha (Hx0 & Hx1 & Hy0 & Hy1).
  destruct (merge_exact a _ _ _ Ha Hx0 Hx1) as [Hmin Hmax].
  unfold exact_box, merge_x.
  destruct (PrimFloat.ltb a (MinX e)); [|destruct (PrimFloat.ltb (MaxX e) a)];
    cbn; repeat split; first [apply Hmin|apply Hmax|apply Hy0|apply Hy1].
Qed.

Lemma merge_y_exact (b : float) (e : Entry) (xs ys : list float) :
  ordered b -> exact_box e xs ys -> exact_box (merge_y b e) xs (ys ++ [b]).
Proof.
  intros Hb (Hx0 & Hx1 & Hy0 & Hy1).
  destruct (merge_exact b _ _ _ Hb Hy0 Hy1) as [Hmin Hmax].
  unfold exact_box, merge_y.
  destruct (PrimFloat.ltb b (MinY e)); [|destruct (PrimFloat.ltb (MaxY e) b)];
    cbn; repeat split; first [apply Hmin|apply Hmax|apply Hx0|apply Hx1].
Qed.

Lemma exact_box_path (p : list Segment) (e : Entry) (xs ys : list float) :
  exact_box (set_Path p e) xs ys <-> exact_box e xs ys.
Proof. reflexivity. Qed.

Lemma absorb_exact (c : Command) (e : Entry) (xs ys : list float) :
  command_ordered c -> exact_box e xs ys ->
  exact_box (absorb (command_segment c) e)
            (xs ++ command_xs c) (ys ++ command_ys c).
Proof.
  intros [Hxs Hys] Hbox. unfold absorb. apply exact_box_path.
  destruct c; cbn [command_segment Args merge_args command_xs command_ys] in *.
  - apply merge_y_exact, merge_x_exact; try assumption;
      [eapply Forall_inv, Hys|eapply Forall_inv, Hxs].
  - apply merge_y_exact, merge_x_exact; try assumption;
      [eapply Forall_inv, Hys|eapply Forall_inv, Hxs].
  - inversion Hxs as [|? ? Ha Hxs1]; inversion Hxs1 as [|? ? Hc Hxs2];
      inversion Hxs2 as [|? ? He _]; subst.
    inversion Hys as [|? ? Hb Hys1]; inversion Hys1 as [|? ? Hd Hys2];
      inversion Hys2 as [|? ? Hf _]; subst.
    replace (xs ++ [a; c; e0]) with (((xs ++ [a]) ++ [c]) ++ [e0])
      by (rewrite <- !app_assoc; reflexivity).
    replace (ys ++ [b; d; f]) with (((ys ++ [b]) ++ [d]) ++ [f])
      by (rewrite <- !app_assoc; reflexivity).
    repeat (apply merge_y_exact, merge_x_exact; try assumption).
Qed.

Lemma begin_exact (c : Command) :
  command_ordered c -> exact_box (begin c) (command_xs c) (command_ys c).
Proof.
  intros [Hxs Hys]. unfold begin, start. apply exact_box_path.
  destruct c;
    cbn [command_segment Args merge_args drop first_pair fst snd
         command_xs command_ys] in *.
  - apply Forall_inv in Hxs, Hys.
    unfold exact_box; cbn [MinX MaxX MinY MaxY]; auto 6 using is_min_one, is_max_one.
  - apply Forall_inv in Hxs, Hys.
    unfold exact_box; cbn [MinX MaxX MinY MaxY]; auto 6 using is_min_one, is_max_one.
  - inversion Hxs as [|? ? Ha Hxs1]; inversion Hxs1 as [|? ? Hc Hxs2];
      inversion Hxs2 as [|? ? He _]; subst.
    inversion Hys as [|? ? Hb Hys1]; inversion Hys1 as [|? ? Hd Hys2];
      inversion Hys2 as [|? ? Hf _]; subst.
    change [a; c; e] with (([a] ++ [c]) ++ [e]).
    change [b; d; f] with (([b] ++ [d]) ++ [f]).
    repeat (apply merge_y_exact, merge_x_exact; try assumption).
    unfold exact_box; cbn [MinX MaxX MinY MaxY]; auto 6 using is_min_one, is_max_one.
Qed.

Lemma absorb_all_exact (cs : list Command) :
  Forall command_ordered cs ->
  forall e xs ys, exact_box e xs ys ->
    exact_box (absorb_all cs e) (xs ++ coords_x cs) (ys ++ coords_y cs).
Proof.
  induction 1 as [|c cs Hc _ IH]; intros e xs ys Hbox; cbn.
  - rewrite !app_nil_r. exact Hbox.
  - fold (absorb_all cs (absorb (command_segment c) e)).
    fold (coords_x cs). fold (coords_y cs).
    rewrite !app_assoc. apply IH, absorb_exact; assumption.
Qed.

End BoundingBox.

Lemma record_exact (es : list Entry) (cs : list Command) :
  no_open_entry es -> cs <> [] -> Forall command_ordered cs ->
  exists e, record cs (buffered es) = Ok tt (buffered (es ++ [e])) /\
            Closed e = false /\ Path e = map command_segment cs /\
            exact_box e (coords_x cs) (coords_y cs).
Proof.
  intros Hno Hne Hord. destruct cs as [|c cs]; [congruence|].
  inversion Hord as [|? ? Hc Hcs]; subst.
  exists (absorb_all cs (begin c)).
  destruct (absorb_all_fields cs (begin c)) as [HClosed HPath].
  destruct (begin_fields c) as [HClosed0 HPath0].
  split; [apply record_fresh, Hno|].
  split; [congruence|].
  split; [rewrite HPath, HPath0; reflexivity|].
  apply (absorb_all_exact cs Hcs), begin_exact, Hc.
Qed.

(** C1 (amended): in a buffered rasterizer with no open entry, record any
    non-empty sequence of MoveTo/LineTo/CubeTo calls none of whose
    coordinates is NaN. After every non-empty prefix of the sequence the
    entry being built holds exactly the segments issued so far and its
    (MinX, MaxX, MinY, MaxY) are the exact minimum and maximum of the x and
    of the y coordinates passed so far, control points included; ClosePath
    then closes that entry and leaves path and box as they are. *)
Theorem bounding_box_exact (es : list Entry) (cs : list Command) :
  no_open_entry es -> cs <> [] -> Forall command_ordered cs ->
  (forall pre post, cs = pre ++ post -> pre <> [] ->
     exists e, record pre (buffered es) = Ok tt (buffered (es ++ [e])) /\
               Closed e = false /\ Path e = map command_segment pre /\
               exact_box e (coords_x pre) (coords_y pre)) /\
  (exists e, (record cs ;;; ClosePath) (buffered es) = Ok tt (buffered (es ++ [e])) /\
             Closed e = true /\ Path e = map command_segment cs /\
             exact_box e (coords_x cs) (coords_y cs)).
Proof.
  intros Hno Hne Hord. split.
  - intros pre post -> Hpre. apply record_exact; try assumption.
    apply Forall_app in Hord. apply Hord.
  - destruct (record_exact es cs Hno Hne Hord) as (e & Hrun & _ & HPath & Hbox).
    exists (set_Closed true e).
    split; [|split; [reflexivity|split; [exact HPath|exact Hbox]]].
    rewrite (bind_ok _ _ _ _ _ Hrun). apply ClosePath_last.
Qed.

Lemma bounding_box_exact_witness :
  exists e,
    (record [CmdMoveTo 1 2; CmdCubeTo 0 0 5 6 2 2.5; CmdLineTo (-3) 1] ;;; ClosePath)
      (buffered []) = Ok tt (buffered ([] ++ [e])) /\
    Closed e = true /\
    Path e = map command_segment
               [CmdMoveTo 1 2; CmdCubeTo 0 0 5 6 2 2.5; CmdLineTo (-3) 1] /\
    exact_box e (coords_x [CmdMoveTo 1 2; CmdCubeTo 0 0 5 6 2 2.5; CmdLineTo (-3) 1])
                (coords_y [CmdMoveTo 1 2; CmdCubeTo 0 0 5 6 2 2.5; CmdLineTo (-3) 1]).
Proof.
  refine (proj2 (bounding_box_exact []
            [CmdMoveTo 1 2; CmdCubeTo 0 0 5 6 2 2.5; CmdLineTo (-3) 1] I _ _)).
  - discriminate.
  - repeat constructor.
Defined.

(** C1 as stated fails on NaN: a NaN that opens an entry stays in its box,
    which then contains none of the later points. *)
Lemma bounding_box_nan_counterexample :
  exists e,
    (record [CmdMoveTo nan 0; CmdLineTo 1 0] ;;; ClosePath) (buffered [])
      = Ok tt (buffered [e]) /\
    Closed e = true /\
    ~ box_contains e 1 0 /\
    ~ exact_box e (coords_x [CmdMoveTo nan 0; CmdLineTo 1 0])
                  (coords_y [CmdMoveTo nan 0; CmdLineTo 1 0]).
Proof.
  eexists. split; [vm_compute; reflexivity|].
  split; [reflexivity|]. split.
  - intros (H & _). vm_compute in H. discriminate.
  - intros ((_ & H) & _). specialize (H 1%float).
    cbn in H. specialize (H (or_intror (or_introl eq_refl))).
    vm_compute in H. discriminate.
Qed.

(* ===================================================================== *)
(** ** Replay, characterised *)
(* ===================================================================== *)

Lemma len_cons {A} (a : A) (l : list A) : len (a :: l) = 1 + len l.
Proof. unfold len. cbn [length]. lia. Qed.

Lemma len_ge_0 {A} (l : list A) : 0 <= len l.
Proof. unfold len. lia. Qed.

(** The shapes an argument list can have with respect to the rule. *)
Lemma args_cases (args : list float) :
  (exists x y, args = [x; y]) \/
  (exists a b c d e f, args = [a; b; c; d; e; f]) \/
  ((len args =? 2) = false /\ (len args =? 6) = false).
Proof.
  destruct args as [|a0 [|a1 [|a2 [|a3 [|a4 [|a5 [|a6 rest]]]]]]].
  1, 2, 4, 5, 6: right; right; split; reflexivity.
  - left. exists a0, a1. reflexivity.
  - right; left. exists a0, a1, a2, a3, a4, a5. reflexivity.
  - right; right. rewrite !len_cons. pose proof (len_ge_0 rest).
    split; apply Z.eqb_neq; lia.
Qed.

Section ReplayFacts.

Context {Image Color : Type}.
Variable Draw :
  vector.Rasterizer -> Image -> image.Rectangle -> Color -> image.Point -> Image.

Lemma replay_segment_run (e : Entry) (p : Segment) (vr : vector.Rasterizer)
    (w : World Image) :
  replay_segment e p vr w
  = if wellformed p then Ok (vector.push (local_cmd e p) vr) w
    else Panic (segment_panic p) w.
Proof.
  destruct p as [op args].
  unfold replay_segment, wellformed, segment_panic, local_cmd.
  cbn [Op Args].
  destruct (args_cases args)
    as [(x & y & ->)|[(a & b & c & d & e' & f & ->)|[H2 H6]]].
  - change (len [x; y] =? 6) with false. change (len [x; y] =? 2) with true.
    unfold moveto, lineto, cubeto.
    destruct (Z.eqb_spec op 3), (Z.eqb_spec op 1), (Z.eqb_spec op 2);
      subst; try discriminate; reflexivity.
  - change (len [a; b; c; d; e'; f] =? 6) with true.
    change (len [a; b; c; d; e'; f] =? 2) with false.
    unfold moveto, lineto, cubeto.
    destruct (Z.eqb_spec op 3), (Z.eqb_spec op 1), (Z.eqb_spec op 2);
      subst; try discriminate; reflexivity.
  - rewrite H2, H6. destruct (op =? cubeto); cbn;
      rewrite ?andb_false_r; reflexivity.
Qed.

Lemma replay_path_run (e : Entry) (path : list Segment) :
  forall (vr : vector.Rasterizer) (w : World Image),
    replay_path e path vr w
    = match find (fun p => negb (wellformed p)) path with
      | Some p => Panic (segment_panic p) w
      | None => Ok (vector.mkRasterizer (vector.size vr)
                      (vector.cmds vr ++ map (local_cmd e) path)) w
      end.
Proof.
  induction path as [|p path IH]; intros vr w; cbn [replay_path find map].
  - rewrite app_nil_r. destruct vr; reflexivity.
  - unfold bind. rewrite replay_segment_run.
    destruct (wellformed p); cbn [negb]; [|reflexivity].
    rewrite IH. cbn [vector.push vector.size vector.cmds].
    rewrite <- app_assoc. reflexivity.
Qed.

Lemma Render_entry_run (x y : float) (col : Color) (e : Entry)
    (r : Rasterizer) (im : Image) :
  Render_entry Draw x y col e (mkWorld r im)
  = in_world r (entry_effect Draw x y col e im).
Proof.
  unfold Render_entry, entry_effect.
  destruct (Closed e); cbn [negb]; [|reflexivity].
  unfold bind. rewrite replay_path_run.
  destruct (find _ (Path e)); reflexivity.
Qed.

Lemma for_range_entries (x y : float) (col : Color) (r : Rasterizer)
    (es : list Entry) :
  forall im,
    for_range es (Render_entry Draw x y col) (mkWorld r im)
    = in_world r (entries_effect Draw x y col es im).
Proof.
  induction es as [|e es IH]; intros im; cbn [for_range entries_effect];
    [reflexivity|].
  unfold bind. rewrite Render_entry_run.
  destruct (entry_effect Draw x y col e im) as [[] im'|p im']; cbn [in_world];
    [apply IH|reflexivity].
Qed.

Lemma Render_run (x y : float) (col : Color) (r : Rasterizer) (im : Image) :
  Render Draw x y col (mkWorld r im)
  = in_world r (entries_effect Draw x y col (Entries r) im).
Proof. unfold Render. rewrite bind_get. apply for_range_entries. Qed.

Lemma entries_effect_app (x y : float) (col : Color) (es1 es2 : list Entry) :
  forall im,
    entries_effect Draw x y col (es1 ++ es2) im
    = match entries_effect Draw x y col es1 im with
      | Ok _ im' => entries_effect Draw x y col es2 im'
      | Panic p im' => Panic p im'
      end.
Proof.
  induction es1 as [|e es1 IH]; intros im; cbn [app entries_effect];
    [reflexivity|].
  destruct (entry_effect Draw x y col e im) as [[] im'|p im'];
    [apply IH|reflexivity].
Qed.

Lemma find_malformed_none (path : list Segment) :
  forallb wellformed path = true ->
  find (fun p => negb (wellformed p)) path = None.
Proof.
  induction path as [|p path IH]; cbn; [reflexivity|].
  destruct (wellformed p); cbn; [exact IH|discriminate].
Qed.

Lemma find_malformed_some (path : list Segment) :
  existsb (fun p => negb (wellformed p)) path = true ->
  exists s, find (fun p => negb (wellformed p)) path = Some s /\
            In s path /\ wellformed s = false.
Proof.
  induction path as [|p path IH]; cbn; [discriminate|].
  destruct (wellformed p) eqn:Hp; cbn.
  - intros H. destruct (IH H) as (s & Hs & Hin & Hw). eauto.
  - intros _. exists p. auto.
Qed.

Lemma entries_effect_wellformed (x y : float) (col : Color) (es : list Entry) :
  (forall e, In e es -> Closed e = true -> forallb wellformed (Path e) = true) ->
  forall im,
    entries_effect Draw x y col es im = Ok tt (composite_all Draw x y col es im).
Proof.
  induction es as [|e es IH]; intros Hwf im; cbn [entries_effect]; [reflexivity|].
  unfold composite_all. cbn [fold_left]. unfold entry_effect.
  destruct (Closed e) eqn:Hc.
  - rewrite find_malformed_none by (apply Hwf; [left; reflexivity|exact Hc]).
    apply IH. intros e' Hin. apply Hwf. right. exact Hin.
  - apply IH. intros e' Hin. apply Hwf. right. exact Hin.
Qed.

End ReplayFacts.

(* ===================================================================== *)
(** ** Properties of the recorder *)
(* ===================================================================== *)

(** C3: [Reset] does not discard the recorded entries. On a buffered
    rasterizer it dereferences the absent scan-converter and panics with
    the entries as they were; on an immediate one it resets the wrapped
    scan-converter to the given size and leaves [Entries] untouched. *)
Theorem Reset_keeps_entries (w h : Z) (es : list Entry) (z : vector.Rasterizer) :
  Reset w h (buffered es) = Panic NilDereference (buffered es) /\
  Reset w h (immediate z es) = Ok tt (immediate (vector.Reset z w h) es).
Proof.
  split; unfold Reset; rewrite bind_get.
  - cbn [R buffered]. reflexivity.
  - cbn [R immediate]. reflexivity.
Qed.

(** C6: with an immediate scan-converter, MoveTo, LineTo, CubeTo and
    ClosePath return normally, forward the command to the scan-converter
    and leave [Entries] as it was. *)
Theorem immediate_leaves_entries (z : vector.Rasterizer) (es : list Entry)
    (x y a b c d e f : float) :
  MoveTo x y (immediate z es)
    = Ok tt (immediate (vector.MoveTo z (to_float32 x) (to_float32 y)) es) /\
  LineTo x y (immediate z es)
    = Ok tt (immediate (vector.LineTo z (to_float32 x) (to_float32 y)) es) /\
  CubeTo a b c d e f (immediate z es)
    = Ok tt (immediate (vector.CubeTo z (to_float32 a) (to_float32 b) (to_float32 c)
                                        (to_float32 d) (to_float32 e) (to_float32 f)) es) /\
  ClosePath (immediate z es) = Ok tt (immediate (vector.ClosePath z) es).
Proof.
  unfold MoveTo, LineTo, CubeTo.
  rewrite !(bind_ok _ _ _ _ _ (extend_immediate _ _ z es)).
  repeat split.
Qed.

(** C7 (amended): on a buffered rasterizer, ClosePath panics at once when
    no entry has ever been started; when the most recent entry is already
    closed it returns normally and leaves the recorder unchanged. *)
Theorem ClosePath_without_open_entry (es : list Entry) (e : Entry) :
  Closed e = true ->
  ClosePath (buffered []) = Panic IndexOutOfRange (buffered []) /\
  ClosePath (buffered (es ++ [e])) = Ok tt (buffered (es ++ [e])).
Proof.
  intros Hc. split; [reflexivity|].
  rewrite ClosePath_last. destruct e; cbn in Hc; subst. reflexivity.
Qed.

Lemma ClosePath_without_open_entry_witness :
  ClosePath (buffered []) = Panic IndexOutOfRange (buffered []) /\
  ClosePath (buffered ([] ++ [mkEntry true [mkSegment moveto [1; 2]%float] 1 1 2 2]))
  = Ok tt (buffered ([] ++ [mkEntry true [mkSegment moveto [1; 2]%float] 1 1 2 2])).
Proof.
  exact (ClosePath_without_open_entry []
           (mkEntry true [mkSegment moveto [1; 2]%float] 1 1 2 2) eq_refl).
Defined.

(** C7 as stated fails: closing again after a close is not reported. *)
Lemma ClosePath_twice_counterexample :
  (MoveTo 1 2 ;;; LineTo 3 4 ;;; ClosePath) (buffered [])
    = Ok tt (buffered [mkEntry true [mkSegment moveto [1; 2]%float;
                                     mkSegment lineto [3; 4]%float] 1 3 2 4]) /\
  no_open_entry [mkEntry true [mkSegment moveto [1; 2]%float;
                               mkSegment lineto [3; 4]%float] 1 3 2 4] /\
  panic_of (ClosePath (buffered [mkEntry true [mkSegment moveto [1; 2]%float;
                                               mkSegment lineto [3; 4]%float] 1 3 2 4]))
    = None.
Proof. repeat split. Qed.

(** C8: in buffered mode a MoveTo starts a new entry, whose box is the
    single point, exactly when no entry is open; issued while the most
    recent entry is open it adds no entry: its segment is appended to that
    entry and its point is merged into that entry's box, which stays exact
    for the coordinates of the entry when the point is not NaN. *)
Theorem MoveTo_opens_or_extends (es : list Entry) (e : Entry) (x y : float) :
  no_open_entry es -> Closed e = false ->
  MoveTo x y (buffered es)
    = Ok tt (buffered (es ++ [mkEntry false [mkSegment moveto [x; y]] x x y y])) /\
  MoveTo x y (buffered (es ++ [e]))
    = Ok tt (buffered (es ++ [set_Path (Path e ++ [mkSegment moveto [x; y]])
                                       (merge_y y (merge_x x e))])) /\
  Closed (merge_y y (merge_x x e)) = false /\
  (forall xs ys, ordered x -> ordered y -> exact_box e xs ys ->
     exact_box (merge_y y (merge_x x e)) (xs ++ [x]) (ys ++ [y])).
Proof.
  intros Hno Hopen. split; [|split; [|split]].
  - apply (issue_fresh (CmdMoveTo x y) es Hno).
  - change (MoveTo x y) with (issue (CmdMoveTo x y)).
    rewrite (issue_open (CmdMoveTo x y) es e Hopen).
    unfold absorb. cbn [command_segment Args merge_args].
    destruct (merge_y_fields y (merge_x x e)) as (_ & -> & _).
    destruct (merge_x_fields x e) as (_ & -> & _). reflexivity.
  - destruct (merge_y_fields y (merge_x x e)) as (-> & _).
    destruct (merge_x_fields x e) as (-> & _). exact Hopen.
  - intros xs ys Hx Hy Hbox. apply merge_y_exact, merge_x_exact; assumption.
Qed.

Lemma MoveTo_opens_or_extends_witness :
  MoveTo 5 (-1) (buffered [])
    = Ok tt (buffered ([] ++ [mkEntry false [mkSegment moveto [5; -1]%float] 5 5 (-1) (-1)])) /\
  MoveTo 5 (-1) (buffered ([] ++ [mkEntry false [mkSegment moveto [1; 2]%float] 1 1 2 2]))
    = Ok tt (buffered [mkEntry false [mkSegment moveto [1; 2]%float;
                                      mkSegment moveto [5; -1]%float] 1 5 (-1) 2]).
Proof.
  pose proof (MoveTo_opens_or_extends []
                (mkEntry false [mkSegment moveto [1; 2]%float] 1 1 2 2) 5 (-1) I eq_refl)
    as (H1 & H2 & _).
  split; [exact H1|exact H2].
Defined.

(** C10: in buffered mode a LineTo or a CubeTo issued when no entry is
    open returns normally and starts a new entry: its path is that one
    segment, with no MoveTo before it, and its box starts as the first
    coordinate pair of the segment (for a CubeTo the two other pairs are
    then merged into it). *)
Theorem LineTo_CubeTo_start_entry (es : list Entry) (x y a b c d e f : float) :
  no_open_entry es ->
  LineTo x y (buffered es)
    = Ok tt (buffered (es ++ [mkEntry false [mkSegment lineto [x; y]] x x y y])) /\
  CubeTo a b c d e f (buffered es)
    = Ok tt (buffered (es ++ [set_Path [mkSegment cubeto [a; b; c; d; e; f]]
                                (merge_y f (merge_x e (merge_y d (merge_x c
                                   (mkEntry false [] a a b b)))))])).
Proof.
  intros Hno. split.
  - apply (issue_fresh (CmdLineTo x y) es Hno).
  - change (CubeTo a b c d e f) with (issue (CmdCubeTo a b c d e f)).
    rewrite (issue_fresh (CmdCubeTo a b c d e f) es Hno).
    unfold begin, start. cbn [first_pair fst snd command_segment Args drop merge_args].
    destruct (merge_args_fields [c; d; e; f] ltac:(repeat constructor)
                (mkEntry false [] a a b b)) as [_ HP].
    cbn [merge_args] in HP. rewrite HP. reflexivity.
Qed.

Lemma LineTo_CubeTo_start_entry_witness :
  LineTo 3 4 (buffered [])
    = Ok tt (buffered [mkEntry false [mkSegment lineto [3; 4]%float] 3 3 4 4]) /\
  CubeTo 0 0 5 6 2 (-1) (buffered [])
    = Ok tt (buffered [mkEntry false
                         [mkSegment cubeto [0; 0; 5; 6; 2; -1]%float] 0 5 (-1) 6]).
Proof.
  exact (LineTo_CubeTo_start_entry [] 3 4 0 0 5 6 2 (-1) I).
Defined.

(* ===================================================================== *)
(** ** Properties of replay *)
(* ===================================================================== *)

Lemma Rect_placed (x y : float) (e : Entry) :
  footprint_fits x y e ->
  image.Rect (offset_x x e) (offset_y y e)
             (GoInt.add (offset_x x e) (wide e))
             (GoInt.add (offset_y y e) (high e))
  = placed x y e.
Proof.
  intros (Hw & Hh & Hx & Hy). unfold image.Rect, placed, GoInt.add, GoInt.wrap.
  assert (Hrange : forall v, GoInt.min_int <= Float64.to_int v <= GoInt.max_int).
  { intros v. unfold Float64.to_int, Float64.int_indefinite.
    destruct (Prim2SF v) as [s|s| |s m ex]; try (unfold GoInt.min_int, GoInt.max_int; lia).
    destruct (GoInt.in_range _) eqn:Hr; [|unfold GoInt.min_int, GoInt.max_int; lia].
    unfold GoInt.in_range in Hr. apply andb_true_iff in Hr. lia. }
  pose proof (Hrange (x + MinX e - 1)%float) as Hox.
  pose proof (Hrange (y + MinY e - 1)%float) as Hoy.
  fold (offset_x x e) in Hox. fold (offset_y y e) in Hoy.
  unfold GoInt.min_int, GoInt.max_int in *.
  replace ((offset_x x e + wide e + 2 ^ 63) mod 2 ^ 64 - 2 ^ 63)
    with (offset_x x e + wide e)
    by (rewrite Z.mod_small; lia).
  replace ((offset_y y e + high e + 2 ^ 63) mod 2 ^ 64 - 2 ^ 63)
    with (offset_y y e + high e)
    by (rewrite Z.mod_small; lia).
  destruct (Z.ltb_spec (offset_x x e + wide e) (offset_x x e)); [lia|].
  destruct (Z.ltb_spec (offset_y y e + high e) (offset_y y e)); [lia|].
  reflexivity.
Qed.

Section ReplayProperties.

Context {Image Color : Type}.
Variable Draw :
  vector.Rasterizer -> Image -> image.Rectangle -> Color -> image.Point -> Image.



(** C5: when Render reaches a closed entry with a segment that breaks
    the 2-or-6 rule (a segment with the sentinel operator always does),
    it panics on the first such segment: the image is the one left by the
    entries before it, so neither that entry nor any later one is
    composited. *)
Theorem Render_aborts_on_malformed (r : Rasterizer) (es1 es2 : list Entry)
    (e : Entry) (im im1 : Image) (x y : float) (col : Color) :
  Entries r = es1 ++ e :: es2 ->
  Closed e = true ->
  existsb (fun p => negb (wellformed p)) (Path e) = true ->
  Render Draw x y col (mkWorld (set_Entries es1 r) im)
    = Ok tt (mkWorld (set_Entries es1 r) im1) ->
  (exists s, In s (Path e) /\ wellformed s = false /\
             Render Draw x y col (mkWorld r im)
               = Panic (segment_panic s) (mkWorld r im1)) /\
  (forall args, wellformed (mkSegment bogus args) = false).
Proof.
  intros HE Hc Hbad Hpre. split; [|reflexivity].
  rewrite Render_run in Hpre. cbn [Entries set_Entries] in Hpre.
  destruct (find_malformed_some _ Hbad) as (s & Hfind & Hin & Hw).
  exists s. split; [exact Hin|split; [exact Hw|]].
  rewrite Render_run, HE, entries_effect_app.
  destruct (entries_effect Draw x y col es1 im) as [[] im1'|p im1'];
    cbn [in_world] in Hpre; [|discriminate].
  injection Hpre as ->.
  cbn [entries_effect]. unfold entry_effect. rewrite Hc, Hfind. reflexivity.
Qed.

(** C9: Render leaves the recorder exactly as it found it, and a second
    Render of the recorder it leaves, with the same arguments onto an
    identical canvas, gives the identical outcome: the same image and
    the same panic, if any. *)
Theorem Render_twice_identical (r : Rasterizer) (blank : Image)
    (x y : float) (col : Color) :
  recorder (state_of (Render Draw x y col (mkWorld r blank))) = r /\
  Render Draw x y col
    (mkWorld (recorder (state_of (Render Draw x y col (mkWorld r blank)))) blank)
  = Render Draw x y col (mkWorld r blank).
Proof.
  assert (Hrec : recorder (state_of (Render Draw x y col (mkWorld r blank))) = r).
  { rewrite Render_run.
    destruct (entries_effect Draw x y col (Entries r) blank); reflexivity. }
  split; [exact Hrec|]. rewrite Hrec. reflexivity.
Qed.

End ReplayProperties.

(* ===================================================================== *)
(** ** The properties on sample recorders *)
(* ===================================================================== *)

Example square_recorded :
  (MoveTo (-5) (-5) ;;; LineTo 5 (-5) ;;; LineTo 5 5 ;;; LineTo (-5) 5 ;;; ClosePath)
    (buffered [])
  = Ok tt (buffered [Demo.square]).
Proof. reflexivity. Qed.

Example curve_recorded :
  (MoveTo 1 2 ;;; CubeTo 0 0 5 6 2 2.5 ;;; ClosePath) (buffered [])
  = Ok tt (buffered [Demo.curve]).
Proof. reflexivity. Qed.

Example square_footprint :
  wide Demo.square = 12 /\ high Demo.square = 12 /\
  placed 10 20 Demo.square
    = image.mkRectangle (image.mkPoint 4 14) (image.mkPoint 16 26).
Proof. repeat split. Qed.



Lemma Render_aborts_on_malformed_witness :
  exists s,
    In s (Path Demo.broken) /\ wellformed s = false /\
    Render Log.Draw 10 20 7
      (mkWorld (buffered [Demo.square; Demo.broken; Demo.curve]) Log.blank)
    = Panic (segment_panic s)
        (mkWorld (buffered [Demo.square; Demo.broken; Demo.curve])
           [(local_buffer Demo.square, placed 10 20 Demo.square, 7, image.ZP)]).
Proof.
  exact (proj1 (Render_aborts_on_malformed Log.Draw
                  (buffered [Demo.square; Demo.broken; Demo.curve])
                  [Demo.square] [Demo.curve] Demo.broken Log.blank
                  [(local_buffer Demo.square, placed 10 20 Demo.square, 7, image.ZP)]
                  10 20 7 eq_refl eq_refl eq_refl eq_refl)).
Defined.

Example Render_broken_panic :
  panic_of (Render Log.Draw 10 20 7
              (mkWorld (buffered [Demo.square; Demo.broken; Demo.curve]) Log.blank))
  = Some (UnsupportedOp bogus).
Proof. reflexivity. Qed.

(** C3 on a recorder that holds an entry: the entry is still there after
    [Reset], which panicked. *)
Example Reset_buffered_square :
  Reset 20 20 (buffered [Demo.square])
  = Panic NilDereference (buffered [Demo.square]).
Proof. reflexivity. Qed.

(* ===================================================================== *)
(** ** Sequences of calls, characterised *)
(* ===================================================================== *)

Lemma bind_unit_ret {S} (c : M S unit) (s : S) : (c ;;; ret tt) s = c s.
Proof. unfold bind. destruct (c s) as [[] s'|p s']; reflexivity. Qed.

Lemma scribe_command (c : Command) : scribe (CallCmd c) = issue c.
Proof. destruct c; reflexivity. Qed.

Lemma no_open_entry_snoc (es : list Entry) (e : Entry) :
  no_open_entry (es ++ [e]) <-> Closed e = true.
Proof. unfold no_open_entry. rewrite last_snoc. reflexivity. Qed.

Lemma issue_buffered (c : Command) (es : list Entry) :
  issue c (buffered es) = Ok tt (buffered (step_command c es)).
Proof.
  unfold step_command.
  destruct es as [|e es _] using rev_ind.
  - apply (issue_fresh c []). exact I.
  - rewrite last_snoc, removelast_last.
    destruct (Closed e) eqn:Hc.
    + apply issue_fresh, no_open_entry_snoc, Hc.
    + apply issue_open, Hc.
Qed.

Lemma scribe_buffered (k : Call) (es : list Entry) :
  scribe k (buffered es)
  = match step_entries k es with
    | Some es' => Ok tt (buffered es')
    | None => Panic IndexOutOfRange (buffered es)
    end.
Proof.
  destruct k as [c|]; cbn [step_entries].
  - rewrite scribe_command. apply issue_buffered.
  - cbn [scribe scribe_ClosePath Rasterizer_Scriber].
    destruct es as [|e es _] using rev_ind; [reflexivity|].
    rewrite last_snoc, removelast_last. apply ClosePath_last.
Qed.

Lemma scribe_immediate (k : Call) (z : vector.Rasterizer) (es : list Entry) :
  scribe k (immediate z es) = Ok tt (immediate (vector.push (forwarded k) z) es).
Proof. destruct k as [[]|]; reflexivity. Qed.

Lemma scribes_immediate (ks : list Call) (es : list Entry) :
  forall z,
    scribes ks (immediate z es)
    = Ok tt (immediate (vector.mkRasterizer (vector.size z)
                          (vector.cmds z ++ map forwarded ks)) es).
Proof.
  unfold scribes.
  induction ks as [|k ks IH]; intros z; cbn [for_range map].
  - rewrite app_nil_r. destruct z; reflexivity.
  - rewrite (bind_ok _ _ _ _ _ (scribe_immediate k z es)).
    rewrite IH. cbn [vector.push vector.size vector.cmds].
    rewrite <- app_assoc. reflexivity.
Qed.

Lemma scribes_steps (ks : list Call) :
  forall es es', steps ks es = Some es' ->
    scribes ks (buffered es) = Ok tt (buffered es').
Proof.
  unfold scribes.
  induction ks as [|k ks IH]; intros es es' Hs; cbn [steps] in Hs.
  - injection Hs as <-. reflexivity.
  - cbn [for_range].
    destruct (step_entries k es) as [es1|] eqn:Hk; [|discriminate].
    erewrite bind_ok; [apply IH, Hs|].
    rewrite scribe_buffered, Hk. reflexivity.
Qed.

Lemma scribes_buffered_ok (ks : list Call) :
  forall es r', scribes ks (buffered es) = Ok tt r' ->
    exists es', r' = buffered es' /\ steps ks es = Some es'.
Proof.
  unfold scribes.
  induction ks as [|k ks IH]; intros es r' Hrun.
  - injection Hrun as <-. exists es. split; reflexivity.
  - cbn [for_range] in Hrun. unfold bind in Hrun.
    rewrite scribe_buffered in Hrun. cbn [steps].
    destruct (step_entries k es) as [es1|]; [|discriminate].
    apply IH, Hrun.
Qed.

Lemma step_entries_cases (k : Call) (es es' : list Entry) :
  step_entries k es = Some es' ->
  (exists c, k = CallCmd c /\ no_open_entry es /\ es' = es ++ [begin c]) \/
  (exists c es0 e, k = CallCmd c /\ es = es0 ++ [e] /\ Closed e = false /\
                   es' = es0 ++ [absorb (command_segment c) e]) \/
  (exists es0 e, k = CallClose /\ es = es0 ++ [e] /\
                 es' = es0 ++ [set_Closed true e]).
Proof.
  destruct k as [c|]; cbn [step_entries]; unfold step_command;
    destruct es as [|e es _] using rev_ind; cbn [last]; intros H.
  - injection H as <-. left. exists c. repeat split.
  - rewrite last_snoc, removelast_last in H.
    destruct (Closed e) eqn:Hc; injection H as <-.
    + left. exists c. split; [reflexivity|]. split; [|reflexivity].
      apply no_open_entry_snoc, Hc.
    + right; left. exists c, es, e. repeat split. exact Hc.
  - discriminate.
  - rewrite last_snoc, removelast_last in H. injection H as <-.
    right; right. exists es, e. repeat split.
Qed.

Lemma steps_invariant (P : list Entry -> Prop) (Q : Call -> Prop) :
  (forall k es es', Q k -> P es -> step_entries k es = Some es' -> P es') ->
  forall ks es es', Forall Q ks -> P es -> steps ks es = Some es' -> P es'.
Proof.
  intros Hstep. induction ks as [|k ks IH]; intros es es' HQ HP Hs;
    cbn [steps] in Hs.
  - injection Hs as <-. exact HP.
  - inversion HQ as [|? ? Hk Hks]; subst.
    destruct (step_entries k es) as [es1|] eqn:Hk1; [|discriminate].
    eapply IH; [exact Hks| |exact Hs]. eapply Hstep; eassumption.
Qed.

Lemma Forall_True {A} (l : list A) : Forall (fun _ => True) l.
Proof. induction l; constructor; auto. Qed.

(* ===================================================================== *)
(** ** What every call keeps *)
(* ===================================================================== *)

Lemma command_wellformed (c : Command) : wellformed (command_segment c) = true.
Proof. destruct c; reflexivity. Qed.

Lemma command_args_xs (c : Command) :
  args_xs (Args (command_segment c)) = command_xs c.
Proof. destruct c; reflexivity. Qed.

Lemma command_args_ys (c : Command) :
  args_ys (Args (command_segment c)) = command_ys c.
Proof. destruct c; reflexivity. Qed.

Lemma begin_wellformed (c : Command) : entry_wellformed (begin c).
Proof.
  unfold entry_wellformed. destruct (begin_fields c) as [_ ->].
  cbn [forallb]. rewrite command_wellformed. reflexivity.
Qed.

Lemma absorb_wellformed (c : Command) (e : Entry) :
  entry_wellformed e -> entry_wellformed (absorb (command_segment c) e).
Proof.
  unfold entry_wellformed. intros He.
  destruct (absorb_fields c e) as [_ ->].
  rewrite forallb_app, He. cbn [forallb].
  rewrite command_wellformed. reflexivity.
Qed.

Lemma step_keeps_wellformed (k : Call) (es es' : list Entry) :
  Forall entry_wellformed es -> step_entries k es = Some es' ->
  Forall entry_wellformed es'.
Proof.
  intros Hes Hk.
  destruct (step_entries_cases k es es' Hk)
    as [(c & _ & _ & ->)|[(c & es0 & e & _ & -> & _ & ->)|(es0 & e & _ & -> & ->)]].
  - apply Forall_app. split; [exact Hes|].
    constructor; [apply begin_wellformed|constructor].
  - apply Forall_app in Hes. destruct Hes as [H0 He].
    apply Forall_app. split; [exact H0|].
    constructor; [|constructor]. apply absorb_wellformed.
    apply (Forall_inv He).
  - apply Forall_app in Hes. destruct Hes as [H0 He].
    apply Forall_app. split; [exact H0|].
    constructor; [|constructor]. apply (Forall_inv He).
Qed.

Lemma begin_entry_exact (c : Command) :
  command_ordered c -> entry_exact (begin c).
Proof.
  intros Hc. unfold entry_exact, entry_xs, entry_ys.
  destruct (begin_fields c) as [_ ->]. cbn [flat_map].
  rewrite !app_nil_r, command_args_xs, command_args_ys.
  apply begin_exact, Hc.
Qed.

Lemma absorb_entry_exact (c : Command) (e : Entry) :
  command_ordered c -> entry_exact e ->
  entry_exact (absorb (command_segment c) e).
Proof.
  intros Hc He. unfold entry_exact, entry_xs, entry_ys in *.
  destruct (absorb_fields c e) as [_ ->].
  rewrite !flat_map_app. cbn [flat_map].
  rewrite !app_nil_r, command_args_xs, command_args_ys.
  apply absorb_exact; assumption.
Qed.

Lemma step_keeps_exact (k : Call) (es es' : list Entry) :
  call_ordered k -> Forall entry_exact es -> step_entries k es = Some es' ->
  Forall entry_exact es'.
Proof.
  intros Hord Hes Hk.
  destruct (step_entries_cases k es es' Hk)
    as [(c & -> & _ & ->)|[(c & es0 & e & -> & -> & _ & ->)|(es0 & e & _ & -> & ->)]].
  - apply Forall_app. split; [exact Hes|].
    constructor; [apply begin_entry_exact, Hord|constructor].
  - apply Forall_app in Hes. destruct Hes as [H0 He].
    apply Forall_app. split; [exact H0|].
    constructor; [|constructor].
    apply absorb_entry_exact; [exact Hord|apply (Forall_inv He)].
  - apply Forall_app in Hes. destruct Hes as [H0 He].
    apply Forall_app. split; [exact H0|].
    constructor; [|constructor]. apply (Forall_inv He).
Qed.

Lemma step_keeps_only_last_open (k : Call) (es es' : list Entry) :
  only_last_open es -> step_entries k es = Some es' -> only_last_open es'.
Proof.
  unfold only_last_open. intros Hes Hk.
  destruct (step_entries_cases k es es' Hk)
    as [(c & _ & Hno & ->)|[(c & es0 & e & _ & -> & _ & ->)|(es0 & e & _ & -> & ->)]].
  - rewrite removelast_last.
    destruct (no_open_entry_cases es Hno) as [->|(es0 & e & -> & Hc)];
      [constructor|].
    rewrite removelast_last in Hes.
    apply Forall_app. split; [exact Hes|]. constructor; [exact Hc|constructor].
  - rewrite removelast_last in *. exact Hes.
  - rewrite removelast_last in *. exact Hes.
Qed.

Lemma step_grows (k : Call) (es es' : list Entry) :
  step_entries k es = Some es' ->
  (length es <= length es' <= length es + 1)%nat.
Proof.
  intros Hk.
  destruct (step_entries_cases k es es' Hk)
    as [(c & _ & _ & ->)|[(c & es0 & e & _ & -> & _ & ->)|(es0 & e & _ & -> & ->)]];
    rewrite ?length_app; cbn [length]; lia.
Qed.

Lemma step_nonempty (k : Call) (es : list Entry) :
  es <> [] -> exists es', step_entries k es = Some es'.
Proof.
  intros Hne. destruct k as [c|]; cbn [step_entries]; [eauto|].
  destruct es as [|e es _] using rev_ind; [congruence|].
  rewrite last_snoc. eauto.
Qed.

Lemma steps_nonempty (ks : list Call) :
  forall es, es <> [] ->
    exists es', steps ks es = Some es' /\ (length es <= length es')%nat.
Proof.
  induction ks as [|k ks IH]; intros es Hne; cbn [steps].
  - exists es. split; [reflexivity|lia].
  - destruct (step_nonempty k es Hne) as [es1 Hk]. rewrite Hk.
    pose proof (step_grows k es es1 Hk) as Hlen.
    destruct (IH es1) as (es' & Hs & Hlen').
    { intros ->. destruct es; [congruence|cbn in Hlen; lia]. }
    exists es'. split; [exact Hs|lia].
Qed.

Lemma set_Closed_closed (e : Entry) : Closed e = true -> set_Closed true e = e.
Proof. destruct e; cbn; intros ->; reflexivity. Qed.

Lemma step_keeps_prefix (es : list Entry) (k : Call) (cur cur' : list Entry) :
  no_open_entry es ->
  (exists tail, cur = es ++ tail) -> step_entries k cur = Some cur' ->
  exists tail, cur' = es ++ tail.
Proof.
  intros Hno [tail ->] Hk.
  destruct (step_entries_cases k _ cur' Hk)
    as [(c & _ & _ & ->)|[(c & es0 & e & _ & Heq & Hopen & ->)|(es0 & e & _ & Heq & ->)]].
  - exists (tail ++ [begin c]). rewrite app_assoc. reflexivity.
  - destruct tail as [|t tail _] using rev_ind.
    + rewrite app_nil_r in Heq. subst es.
      apply no_open_entry_snoc in Hno. congruence.
    + rewrite app_assoc in Heq. apply app_inj_tail in Heq as [<- <-].
      exists (tail ++ [absorb (command_segment c) t]).
      rewrite app_assoc. reflexivity.
  - destruct tail as [|t tail _] using rev_ind.
    + rewrite app_nil_r in Heq. subst es.
      apply no_open_entry_snoc in Hno.
      rewrite (set_Closed_closed e Hno). exists []. rewrite app_nil_r. reflexivity.
    + rewrite app_assoc in Heq. apply app_inj_tail in Heq as [<- <-].
      exists (tail ++ [set_Closed true t]).
      rewrite app_assoc. reflexivity.
Qed.

(** X1: MoveTo, LineTo and CubeTo never panic, whatever the rasterizer
    holds. They never remove an entry, add at most one, and leave every
    entry before the most recent one as it was. *)
Theorem commands_never_panic (r : Rasterizer) (c : Command) :
  exists r' tail,
    issue c r = Ok tt r' /\
    Entries r' = removelast (Entries r) ++ tail /\
    (length tail <= 2)%nat /\
    (length (Entries r) <= length (Entries r') <= length (Entries r) + 1)%nat.
Proof.
  destruct r as [[z|] es].
  - rewrite <- scribe_command.
    change (mkRasterizer (Some z) es) with (immediate z es).
    rewrite scribe_immediate. cbn [Entries immediate].
    destruct es as [|e es _] using rev_ind.
    + exists (immediate (vector.push (forwarded (CallCmd c)) z) []), [].
      repeat split; cbn [Entries immediate buffered]; rewrite ?length_app; cbn [length]; lia.
    + exists (immediate (vector.push (forwarded (CallCmd c)) z) (es ++ [e])), [e].
      rewrite removelast_last. repeat split; cbn [Entries immediate buffered]; rewrite ?length_app; cbn [length]; lia.
  - change (mkRasterizer None es) with (buffered es).
    rewrite issue_buffered. cbn [Entries buffered].
    pose proof (step_grows (CallCmd c) es _ eq_refl) as Hlen.
    exists (buffered (step_command c es)). cbn [Entries buffered].
    unfold step_command in *.
    destruct es as [|e es _] using rev_ind.
    + exists [begin c]. repeat split; cbn; lia.
    + rewrite last_snoc, removelast_last in *.
      destruct (Closed e).
      * exists [e; begin c]. rewrite <- app_assoc.
        repeat split; cbn [Entries immediate buffered]; rewrite ?length_app; cbn [length]; lia.
      * exists [absorb (command_segment c) e].
        repeat split; cbn [Entries immediate buffered]; rewrite ?length_app; cbn [length]; lia.
Qed.

(** X2: on a buffered rasterizer a sequence of MoveTo, LineTo, CubeTo and
    ClosePath calls panics in one case only: the rasterizer holds no entry
    and the first call is ClosePath. *)
Theorem calls_panic_only_on_first_close (ks : list Call) (es : list Entry) :
  panic_of (scribes ks (buffered es))
  = match es, ks with
    | [], CallClose :: _ => Some IndexOutOfRange
    | _, _ => None
    end.
Proof.
  assert (Hne : forall ks' es', es' <> [] ->
            panic_of (scribes ks' (buffered es')) = None).
  { intros ks' es' H. destruct (steps_nonempty ks' es' H) as (es'' & Hs & _).
    rewrite (scribes_steps ks' es' es'' Hs). reflexivity. }
  destruct es as [|e es].
  - destruct ks as [|[c|] ks]; [reflexivity| |reflexivity].
    unfold scribes. cbn [for_range].
    rewrite (bind_ok _ _ _ _ _ (scribe_buffered (CallCmd c) [])).
    cbn [step_entries step_command last].
    apply (Hne ks [begin c]). discriminate.
  - rewrite (Hne ks (e :: es)) by discriminate. reflexivity.
Qed.

(** X4: through any sequence of calls whose coordinates are not NaN, every
    entry of a buffered rasterizer, open or closed, keeps as its box the
    exact minimum and maximum of the coordinates found in its own path. *)
Theorem every_box_stays_exact (ks : list Call) (es : list Entry) (r' : Rasterizer) :
  Forall call_ordered ks -> Forall entry_exact es ->
  scribes ks (buffered es) = Ok tt r' ->
  Forall entry_exact (Entries r').
Proof.
  intros Hord Hes Hrun.
  destruct (scribes_buffered_ok ks es r' Hrun) as (es' & -> & Hs).
  apply (steps_invariant (Forall entry_exact) call_ordered
           step_keeps_exact ks es es' Hord Hes Hs).
Qed.

(** X5: at most one entry is open and it is the most recent one: when
    every entry but the last is closed, this is still so after any
    sequence of calls. *)
Theorem only_last_entry_open (ks : list Call) (es : list Entry) (r' : Rasterizer) :
  only_last_open es ->
  scribes ks (buffered es) = Ok tt r' ->
  only_last_open (Entries r').
Proof.
  intros Hes Hrun.
  destruct (scribes_buffered_ok ks es r' Hrun) as (es' & -> & Hs).
  apply (steps_invariant only_last_open (fun _ => True)
           (fun k a b _ => step_keeps_only_last_open k a b)
           ks es es' (Forall_True ks) Hes Hs).
Qed.

(** X6: the entries a buffered rasterizer holds when none is open are
    never touched again: after any sequence of calls they are still there,
    unchanged and in the same order, before whatever was added. *)
Theorem closed_entries_are_kept (ks : list Call) (es : list Entry) (r' : Rasterizer) :
  no_open_entry es ->
  scribes ks (buffered es) = Ok tt r' ->
  exists tail, Entries r' = es ++ tail.
Proof.
  intros Hno Hrun.
  destruct (scribes_buffered_ok ks es r' Hrun) as (es' & -> & Hs).
  apply (steps_invariant (fun cur => exists tail, cur = es ++ tail) (fun _ => True)
           (fun k a b _ => step_keeps_prefix es k a b Hno)
           ks es es' (Forall_True ks)); [|exact Hs].
  exists []. rewrite app_nil_r. reflexivity.
Qed.

(* ===================================================================== *)
(** ** NaN and the box *)
(* ===================================================================== *)

Lemma Prim2SF_nan (a : float) : Float64.is_nan a = true -> Prim2SF a = S754_nan.
Proof. unfold Float64.is_nan, Prim2SF. intros ->. reflexivity. Qed.

Lemma ltb_nan_l (a v : float) : Float64.is_nan a = true -> PrimFloat.ltb a v = false.
Proof. intros Ha. rewrite ltb_spec, (Prim2SF_nan a Ha). reflexivity. Qed.

Lemma ltb_nan_r (a v : float) : Float64.is_nan a = true -> PrimFloat.ltb v a = false.
Proof.
  intros Ha. rewrite ltb_spec, (Prim2SF_nan a Ha).
  destruct (Prim2SF v); reflexivity.
Qed.

Lemma leb_nan_l (a v : float) : Float64.is_nan a = true -> PrimFloat.leb a v = false.
Proof. intros Ha. rewrite leb_spec, (Prim2SF_nan a Ha). reflexivity. Qed.

Lemma merge_x_nan (a : float) (e : Entry) :
  Float64.is_nan a = true -> merge_x a e = e.
Proof.
  intros Ha. unfold merge_x.
  rewrite (ltb_nan_l a _ Ha), (ltb_nan_r a _ Ha). reflexivity.
Qed.

Lemma merge_y_nan (b : float) (e : Entry) :
  Float64.is_nan b = true -> merge_y b e = e.
Proof.
  intros Hb. unfold merge_y.
  rewrite (ltb_nan_l b _ Hb), (ltb_nan_r b _ Hb). reflexivity.
Qed.

Lemma merge_x_nan_box (a : float) (e : Entry) :
  Float64.is_nan (MinX e) = true -> Float64.is_nan (MaxX e) = true ->
  merge_x a e = e.
Proof.
  intros Hlo Hhi. unfold merge_x.
  rewrite (ltb_nan_r _ a Hlo), (ltb_nan_l _ a Hhi). reflexivity.
Qed.

Lemma merge_args_nan_box (rest : list float) :
  paired rest ->
  forall e,
    Float64.is_nan (MinX e) = true -> Float64.is_nan (MaxX e) = true ->
    MinX (merge_args rest e) = MinX e /\ MaxX (merge_args rest e) = MaxX e.
Proof.
  induction 1 as [|a b rest2 _ IH]; intros e Hlo Hhi; [split; reflexivity|].
  cbn [merge_args]. rewrite (merge_x_nan_box a e Hlo Hhi).
  destruct (merge_y_fields b e) as (_ & _ & Ex0 & Ex1).
  destruct (IH (merge_y b e)) as [-> ->]; rewrite ?Ex0, ?Ex1; auto.
Qed.

Lemma absorb_nan_box (c : Command) (e : Entry) :
  Float64.is_nan (MinX e) = true -> Float64.is_nan (MaxX e) = true ->
  MinX (absorb (command_segment c) e) = MinX e /\
  MaxX (absorb (command_segment c) e) = MaxX e.
Proof.
  intros Hlo Hhi. unfold absorb. cbn [MinX MaxX set_Path].
  apply merge_args_nan_box; [apply command_paired|exact Hlo|exact Hhi].
Qed.

Lemma absorb_all_nan_box (cs : list Command) :
  forall e,
    Float64.is_nan (MinX e) = true -> Float64.is_nan (MaxX e) = true ->
    MinX (absorb_all cs e) = MinX e /\ MaxX (absorb_all cs e) = MaxX e.
Proof.
  induction cs as [|c cs IH]; intros e Hlo Hhi; [split; reflexivity|].
  cbn. fold (absorb_all cs (absorb (command_segment c) e)).
  destruct (absorb_nan_box c e Hlo Hhi) as [E0 E1].
  destruct (IH (absorb (command_segment c) e)) as [-> ->];
    rewrite ?E0, ?E1; auto.
Qed.

Lemma begin_nan_box (c : Command) :
  Float64.is_nan (fst (first_pair c)) = true ->
  MinX (begin c) = fst (first_pair c) /\ MaxX (begin c) = fst (first_pair c).
Proof.
  intros Hx. unfold begin, start. cbn [MinX MaxX set_Path].
  apply (merge_args_nan_box (drop 2 (Args (command_segment c))));
    [destruct c; cbn; repeat constructor|exact Hx|exact Hx].
Qed.

(** X7: a NaN passed as a coordinate to an entry that is open is
    recorded in the path and ignored by the box: a NaN x leaves MinX and
    MaxX as they are, a NaN y leaves MinY and MaxY as they are. *)
Theorem nan_coordinate_is_ignored (es : list Entry) (e : Entry) (q v : float) :
  Closed e = false -> Float64.is_nan q = true ->
  LineTo q v (buffered (es ++ [e]))
    = Ok tt (buffered (es ++ [set_Path (Path e ++ [mkSegment lineto [q; v]])
                                       (merge_y v e)])) /\
  LineTo v q (buffered (es ++ [e]))
    = Ok tt (buffered (es ++ [set_Path (Path e ++ [mkSegment lineto [v; q]])
                                       (merge_x v e)])) /\
  MoveTo q q (buffered (es ++ [e]))
    = Ok tt (buffered (es ++ [set_Path (Path e ++ [mkSegment moveto [q; q]]) e])).
Proof.
  intros Hopen Hq. split; [|split].
  - change (LineTo q v) with (issue (CmdLineTo q v)).
    rewrite (issue_open _ es e Hopen). unfold absorb.
    cbn [command_segment Args merge_args].
    rewrite (merge_x_nan q e Hq).
    destruct (merge_y_fields v e) as (_ & -> & _). reflexivity.
  - change (LineTo v q) with (issue (CmdLineTo v q)).
    rewrite (issue_open _ es e Hopen). unfold absorb.
    cbn [command_segment Args merge_args].
    rewrite (merge_y_nan q _ Hq).
    destruct (merge_x_fields v e) as (_ & -> & _). reflexivity.
  - change (MoveTo q q) with (issue (CmdMoveTo q q)).
    rewrite (issue_open _ es e Hopen). unfold absorb.
    cbn [command_segment Args merge_args].
    rewrite (merge_x_nan q e Hq), (merge_y_nan q e Hq). reflexivity.
Qed.

Lemma nan_coordinate_is_ignored_witness :
  LineTo nan 9 (buffered ([] ++ [mkEntry false [mkSegment moveto [1; 2]%float] 1 1 2 2]))
  = Ok tt (buffered [mkEntry false [mkSegment moveto [1; 2]%float;
                                    mkSegment lineto [nan; 9]%float] 1 1 2 9]).
Proof.
  exact (proj1 (nan_coordinate_is_ignored []
                  (mkEntry false [mkSegment moveto [1; 2]%float] 1 1 2 2)
                  nan 9 eq_refl eq_refl)).
Defined.

(** X8: when the first x coordinate of an entry is NaN, MinX and MaxX of
    that entry are that NaN and stay so whatever is recorded next, and the
    box contains no point at all. *)
Theorem nan_start_poisons_box (es : list Entry) (c : Command) (cs : list Command) :
  no_open_entry es -> Float64.is_nan (fst (first_pair c)) = true ->
  exists e,
    record (c :: cs) (buffered es) = Ok tt (buffered (es ++ [e])) /\
    MinX e = fst (first_pair c) /\ MaxX e = fst (first_pair c) /\
    forall px py, ~ box_contains e px py.
Proof.
  intros Hno Hx. exists (absorb_all cs (begin c)).
  destruct (begin_nan_box c Hx) as [E0 E1].
  destruct (absorb_all_nan_box cs (begin c)) as [F0 F1];
    [rewrite E0; exact Hx|rewrite E1; exact Hx|].
  split; [apply record_fresh, Hno|].
  split; [congruence|]. split; [congruence|].
  intros px py (Hlo & _). unfold Float64.le in Hlo.
  rewrite leb_nan_l in Hlo; [discriminate|]. rewrite F0, E0. exact Hx.
Qed.

Lemma nan_start_poisons_box_witness :
  exists e,
    record [CmdMoveTo nan 0; CmdLineTo 1 0; CmdCubeTo 2 2 3 3 4 4] (buffered [])
      = Ok tt (buffered ([] ++ [e])) /\
    MinX e = nan /\ MaxX e = nan /\
    forall px py, ~ box_contains e px py.
Proof.
  exact (nan_start_poisons_box [] (CmdMoveTo nan 0)
           [CmdLineTo 1 0; CmdCubeTo 2 2 3 3 4 4] I eq_refl).
Defined.

Section BoxGrows.
Import Float64Facts.

Lemma merge_x_contains (a : float) (e : Entry) (px py : float) :
  box_contains e px py -> box_contains (merge_x a e) px py.
Proof.
  intros (Hx0 & Hx1 & Hy0 & Hy1). unfold box_contains, merge_x.
  destruct (PrimFloat.ltb a (MinX e)) eqn:Hlt;
    [|destruct (PrimFloat.ltb (MaxX e) a) eqn:Hgt]; cbn;
    repeat split; try assumption.
  - eapply le_trans; [apply lt_le, Hlt|exact Hx0].
  - eapply le_trans; [exact Hx1|apply lt_le, Hgt].
Qed.

Lemma merge_y_contains (b : float) (e : Entry) (px py : float) :
  box_contains e px py -> box_contains (merge_y b e) px py.
Proof.
  intros (Hx0 & Hx1 & Hy0 & Hy1). unfold box_contains, merge_y.
  destruct (PrimFloat.ltb b (MinY e)) eqn:Hlt;
    [|destruct (PrimFloat.ltb (MaxY e) b) eqn:Hgt]; cbn;
    repeat split; try assumption.
  - eapply le_trans; [apply lt_le, Hlt|exact Hy0].
  - eapply le_trans; [exact Hy1|apply lt_le, Hgt].
Qed.

Lemma merge_args_contains (rest : list float) (px py : float) :
  paired rest ->
  forall e, box_contains e px py -> box_contains (merge_args rest e) px py.
Proof.
  induction 1 as [|a b rest2 _ IH]; intros e He; [exact He|].
  cbn [merge_args]. apply IH, merge_y_contains, merge_x_contains, He.
Qed.

Lemma absorb_all_contains (cs : list Command) (px py : float) :
  forall e, box_contains e px py -> box_contains (absorb_all cs e) px py.
Proof.
  induction cs as [|c cs IH]; intros e He; [exact He|].
  cbn. fold (absorb_all cs (absorb (command_segment c) e)).
  apply IH. unfold absorb.
  apply (merge_args_contains _ px py (command_paired c) e He).
Qed.

End BoxGrows.

(** X9: the box of an open entry never shrinks: a point it contains is
    still in it after any further MoveTo, LineTo and CubeTo calls on that
    entry, NaN coordinates included. *)
Theorem box_keeps_its_points (es : list Entry) (e : Entry) (cs : list Command)
    (px py : float) :
  Closed e = false -> box_contains e px py ->
  exists e',
    record cs (buffered (es ++ [e])) = Ok tt (buffered (es ++ [e'])) /\
    Closed e' = false /\ box_contains e' px py.
Proof.
  intros Hopen He. exists (absorb_all cs e).
  split; [apply record_open, Hopen|].
  split; [destruct (absorb_all_fields cs e) as [-> _]; exact Hopen|].
  apply absorb_all_contains, He.
Qed.

Lemma box_keeps_its_points_witness :
  exists e',
    record [CmdLineTo nan 7; CmdCubeTo 0 0 (-4) 3 9 9]
      (buffered ([] ++ [mkEntry false [mkSegment moveto [1; 2]%float] 1 1 2 2]))
      = Ok tt (buffered ([] ++ [e'])) /\
    Closed e' = false /\ box_contains e' 1 2.
Proof.
  refine (box_keeps_its_points []
            (mkEntry false [mkSegment moveto [1; 2]%float] 1 1 2 2)
            [CmdLineTo nan 7; CmdCubeTo 0 0 (-4) 3 9 9] 1 2 eq_refl _).
  repeat split.
Defined.

(* ===================================================================== *)
(** ** The shape functions *)
(* ===================================================================== *)

Lemma for_range_app {S A} (f : A -> M S unit) (l1 l2 : list A) :
  forall s, for_range (l1 ++ l2) f s = (for_range l1 f ;;; for_range l2 f) s.
Proof.
  induction l1 as [|a l1 IH]; intros s; cbn [app for_range]; [reflexivity|].
  unfold bind.
  destruct (f a s) as [[] s'|p s']; [|reflexivity].
  rewrite IH. reflexivity.
Qed.

(** A shape function makes the calls of [shape_commands], then ClosePath. *)
Lemma draw_shape_run {S} `{Scriber S} (sh : Shape) (s : S) :
  draw_shape sh s
  = if degenerate sh then Ok tt s
    else scribes (map CallCmd (shape_commands sh) ++ [CallClose]) s.
Proof.
  destruct sh as [x y width|capped oX oY nX nY width|x y width];
    cbn [draw_shape degenerate shape_commands].
  - unfold raster.PointAt, scribes. cbn [map app for_range scribe].
    unfold bind. run_calls.
  - unfold raster.LineTo.
    destruct (PrimFloat.eqb oX nX && PrimFloat.eqb oY nY); [reflexivity|].
    destruct capped; unfold scribes; cbn [map app for_range scribe];
      unfold bind; cbv beta iota zeta; run_calls.
  - unfold raster.SquareAt.
    destruct (PrimFloat.leb width 0); [reflexivity|].
    unfold scribes. cbn [map app for_range scribe]. unfold bind. run_calls.
Qed.

Lemma scribes_commands (cs : list Command) (r : Rasterizer) :
  scribes (map CallCmd cs) r = record cs r.
Proof.
  unfold scribes, record. revert r.
  induction cs as [|c cs IH]; intros r; cbn [map for_range]; [reflexivity|].
  unfold bind. rewrite scribe_command.
  destruct (issue c r) as [[] r'|p r']; [apply IH|reflexivity].
Qed.

Lemma scribes_closed_entry (cs : list Command) (es : list Entry) :
  no_open_entry es -> cs <> [] ->
  scribes (map CallCmd cs ++ [CallClose]) (buffered es)
  = Ok tt (buffered (es ++ closed_entry cs)).
Proof.
  intros Hno Hne. destruct cs as [|c cs]; [congruence|].
  unfold scribes. rewrite for_range_app.
  erewrite bind_ok; cycle 1.
  { apply (eq_trans (scribes_commands (c :: cs) (buffered es))).
    apply record_fresh, Hno. }
  cbn [for_range]. rewrite bind_unit_ret.
  cbn [scribe scribe_ClosePath Rasterizer_Scriber closed_entry].
  apply ClosePath_last.
Qed.

Lemma shape_commands_nonempty (sh : Shape) : shape_commands sh <> [].
Proof. destruct sh as [? ? ?|[] ? ? ? ? ?|? ? ?]; discriminate. Qed.

Lemma shape_buffered (sh : Shape) (es : list Entry) :
  no_open_entry es ->
  draw_shape sh (buffered es) = Ok tt (buffered (es ++ shape_entries sh)).
Proof.
  intros Hno. rewrite draw_shape_run. unfold shape_entries.
  destruct (degenerate sh); [rewrite app_nil_r; reflexivity|].
  apply scribes_closed_entry; [exact Hno|apply shape_commands_nonempty].
Qed.

Lemma closed_entry_fields (c : Command) (cs : list Command) :
  Closed (set_Closed true (absorb_all cs (begin c))) = true /\
  Path (set_Closed true (absorb_all cs (begin c)))
    = map command_segment (c :: cs).
Proof.
  split; [reflexivity|]. cbn [Path set_Closed map].
  destruct (absorb_all_fields cs (begin c)) as [_ ->].
  destruct (begin_fields c) as [_ ->]. reflexivity.
Qed.

Lemma commands_wellformed (cs : list Command) :
  forallb wellformed (map command_segment cs) = true.
Proof.
  induction cs as [|c cs IH]; cbn [map forallb]; [reflexivity|].
  rewrite command_wellformed, IH. reflexivity.
Qed.

Lemma shape_operators_spec (sh : Shape) :
  map Op (map command_segment (shape_commands sh)) = shape_operators sh.
Proof. destruct sh as [? ? ?|[] ? ? ? ? ?|? ? ?]; reflexivity. Qed.

Lemma shape_entries_closed (sh : Shape) :
  Forall (fun e => Closed e = true /\ entry_wellformed e) (shape_entries sh).
Proof.
  unfold shape_entries. destruct (degenerate sh); [constructor|].
  destruct (shape_commands sh) as [|c cs]; [constructor|].
  cbn [closed_entry]. constructor; [|constructor].
  destruct (closed_entry_fields c cs) as [Hc HP].
  split; [exact Hc|]. unfold entry_wellformed. rewrite HP.
  apply commands_wellformed.
Qed.

Lemma no_open_entry_app_closed (es new : list Entry) :
  no_open_entry es -> Forall (fun e => Closed e = true) new ->
  no_open_entry (es ++ new).
Proof.
  intros Hno Hnew. destruct new as [|e new _] using rev_ind.
  - rewrite app_nil_r. exact Hno.
  - rewrite app_assoc. apply no_open_entry_snoc.
    apply Forall_app in Hnew. destruct Hnew as [_ He].
    apply (Forall_inv He).
Qed.

Lemma shapes_buffered (shapes : list Shape) :
  forall es, no_open_entry es ->
    for_range shapes draw_shape (buffered es)
    = Ok tt (buffered (es ++ flat_map shape_entries shapes)).
Proof.
  induction shapes as [|sh shapes IH]; intros es Hno; cbn [for_range flat_map].
  - rewrite app_nil_r. reflexivity.
  - rewrite (bind_ok _ _ _ _ _ (shape_buffered sh es Hno)).
    rewrite IH, app_assoc; [reflexivity|].
    apply no_open_entry_app_closed; [exact Hno|].
    eapply Forall_impl; [apply shape_entries_closed|]. intros e [He _]. exact He.
Qed.

Lemma shapes_entries_closed (shapes : list Shape) :
  Forall (fun e => Closed e = true /\ entry_wellformed e)
         (flat_map shape_entries shapes).
Proof.
  induction shapes as [|sh shapes IH]; cbn [flat_map]; [constructor|].
  apply Forall_app. split; [apply shape_entries_closed|exact IH].
Qed.

Lemma shapes_entries_length (shapes : list Shape) :
  length (flat_map shape_entries shapes)
  = length (List.filter (fun sh => negb (degenerate sh)) shapes).
Proof.
  induction shapes as [|sh shapes IH]; cbn [flat_map List.filter]; [reflexivity|].
  rewrite length_app, IH. unfold shape_entries.
  pose proof (shape_commands_nonempty sh) as Hne.
  destruct (degenerate sh); cbn [negb]; [reflexivity|].
  destruct (shape_commands sh); [congruence|reflexivity].
Qed.

(** X10: on a buffered rasterizer with no open entry, PointAt, LineTo and
    SquareAt leave the entries that were there as they are and add
    nothing on a degenerate input (a line from a point to itself, a square
    of width <= 0); otherwise they add exactly one entry. That entry is
    closed, obeys the 2-or-6 rule, holds the segments of the shape in the
    order of the calls, and its box is exact when no coordinate is NaN. *)
Theorem shape_records_one_closed_entry (sh : Shape) (es : list Entry) :
  no_open_entry es ->
  draw_shape sh (buffered es) = Ok tt (buffered (es ++ shape_entries sh)) /\
  (degenerate sh = true -> shape_entries sh = []) /\
  (degenerate sh = false ->
   exists e, shape_entries sh = [e] /\ Closed e = true /\
             Path e = map command_segment (shape_commands sh) /\
             map Op (Path e) = shape_operators sh /\
             entry_wellformed e /\
             (Forall command_ordered (shape_commands sh) ->
              exact_box e (coords_x (shape_commands sh))
                          (coords_y (shape_commands sh)))).
Proof.
  intros Hno. split; [apply shape_buffered, Hno|].
  unfold shape_entries. split; intros Hd; rewrite Hd; [reflexivity|].
  pose proof (shape_operators_spec sh) as Hops.
  pose proof (shape_commands_nonempty sh) as Hne.
  destruct (shape_commands sh) as [|c cs]; [congruence|].
  destruct (closed_entry_fields c cs) as [Hc HP].
  exists (set_Closed true (absorb_all cs (begin c))).
  split; [reflexivity|]. split; [exact Hc|]. split; [exact HP|].
  split; [rewrite HP; exact Hops|].
  split; [unfold entry_wellformed; rewrite HP; apply commands_wellformed|].
  intros Hord. inversion Hord as [|? ? Hc0 Hcs]; subst.
  apply (absorb_all_exact cs Hcs (begin c) (command_xs c) (command_ys c)).
  apply begin_exact, Hc0.
Qed.

Lemma shape_records_one_closed_entry_witness :
  draw_shape (Square 0 0 10) (buffered ([] ++ [Demo.curve]))
  = Ok tt (buffered ([Demo.curve] ++ [Demo.square])).
Proof.
  exact (proj1 (shape_records_one_closed_entry (Square 0 0 10)
                  ([] ++ [Demo.curve]) eq_refl)).
Defined.

Lemma steps_app (ks1 ks2 : list Call) :
  forall es,
    steps (ks1 ++ ks2) es
    = match steps ks1 es with
      | Some es1 => steps ks2 es1
      | None => None
      end.
Proof.
  induction ks1 as [|k ks1 IH]; intros es; cbn [app steps]; [reflexivity|].
  destruct (step_entries k es); [apply IH|reflexivity].
Qed.

Lemma shape_calls_run {S} `{Scriber S} (sh : Shape) (s : S) :
  draw_shape sh s = scribes (shape_calls sh) s.
Proof.
  rewrite draw_shape_run. unfold shape_calls.
  destruct (degenerate sh); reflexivity.
Qed.

Lemma shape_steps (sh : Shape) (es : list Entry) :
  exists es',
    steps (shape_calls sh) es = Some es' /\
    (degenerate sh = false -> no_open_entry es').
Proof.
  unfold shape_calls. destruct (degenerate sh).
  - exists es. split; [reflexivity|discriminate].
  - pose proof (shape_commands_nonempty sh) as Hne.
    destruct (shape_commands sh) as [|c cs]; [congruence|].
    cbn [map app steps step_entries]. rewrite steps_app.
    assert (Hne1 : step_command c es <> []).
    { destruct (step_entries_cases (CallCmd c) es _ eq_refl)
        as [(c' & _ & _ & ->)|[(c' & es0 & e & _ & _ & _ & ->)|(es0 & e & Hk & _)]];
        [intros H; apply app_eq_nil in H as [_ H]; discriminate ..|discriminate]. }
    destruct (steps_nonempty (map CallCmd cs) _ Hne1) as (es2 & -> & Hlen).
    cbn [steps step_entries].
    destruct es2 as [|e es2 _] using rev_ind.
    { destruct (step_command c es); [congruence|cbn in Hlen; lia]. }
    rewrite last_snoc, removelast_last.
    exists (es2 ++ [set_Closed true e]). split; [reflexivity|].
    intros _. apply no_open_entry_snoc. reflexivity.
Qed.

(** X11: PointAt, LineTo and SquareAt never panic on a rasterizer, with or
    without a scan-converter and whatever it already holds. In buffered
    mode a shape that is not degenerate leaves no entry open, even when
    one was open before; in immediate mode the entries are not touched. *)
Theorem shape_never_panics (sh : Shape) (r : Rasterizer) :
  exists r',
    draw_shape sh r = Ok tt r' /\
    (R r' = None <-> R r = None) /\
    (R r = None -> degenerate sh = false -> no_open_entry (Entries r')) /\
    (forall z, R r = Some z -> Entries r' = Entries r).
Proof.
  rewrite shape_calls_run. destruct r as [[z|] es].
  - change (mkRasterizer (Some z) es) with (immediate z es).
    rewrite scribes_immediate. eexists. split; [reflexivity|].
    split; [split; discriminate|]. split; [discriminate|reflexivity].
  - change (mkRasterizer None es) with (buffered es).
    destruct (shape_steps sh es) as (es' & Hs & Hclosed).
    rewrite (scribes_steps _ es es' Hs). exists (buffered es').
    split; [reflexivity|]. split; [split; reflexivity|].
    split; [intros _; exact Hclosed|discriminate].
Qed.

Lemma plain_scribe (k : Call) (z : vector.Rasterizer) :
  scribe k (plain.mkRasterizer (Some z))
  = Ok tt (plain.mkRasterizer (Some (vector.push (forwarded k) z))).
Proof. destruct k as [[]|]; reflexivity. Qed.

Lemma plain_scribes (ks : list Call) :
  forall z,
    scribes ks (plain.mkRasterizer (Some z))
    = Ok tt (plain.mkRasterizer (Some (forward_all ks z))).
Proof.
  unfold scribes, forward_all.
  induction ks as [|k ks IH]; intros z; cbn [for_range map].
  - rewrite app_nil_r. destruct z; reflexivity.
  - rewrite (bind_ok _ _ _ _ _ (plain_scribe k z)).
    rewrite IH. cbn [vector.push vector.size vector.cmds].
    rewrite <- app_assoc. reflexivity.
Qed.

(** X12: while it has a scan-converter, the recording rasterizer behaves
    like the plain wrapper of raster.go: for any sequence of calls and for
    each shape function both send the same commands, converted to float32,
    in the same order to the scan-converter, and the entries are left
    alone. Without a scan-converter every call on the plain wrapper
    panics. *)
Theorem immediate_matches_plain (ks : list Call) (sh : Shape)
    (z : vector.Rasterizer) (es : list Entry) :
  scribes ks (immediate z es) = Ok tt (immediate (forward_all ks z) es) /\
  scribes ks (plain.mkRasterizer (Some z))
    = Ok tt (plain.mkRasterizer (Some (forward_all ks z))) /\
  draw_shape sh (immediate z es)
    = Ok tt (immediate (forward_all (shape_calls sh) z) es) /\
  draw_shape sh (plain.mkRasterizer (Some z))
    = Ok tt (plain.mkRasterizer (Some (forward_all (shape_calls sh) z))) /\
  (forall k, scribe k (plain.mkRasterizer None)
             = Panic NilDereference (plain.mkRasterizer None)).
Proof.
  split; [apply scribes_immediate|]. split; [apply plain_scribes|].
  split; [rewrite shape_calls_run; apply scribes_immediate|].
  split; [rewrite shape_calls_run; apply plain_scribes|].
  intros [[]|]; reflexivity.
Qed.


Module OperatorFacts.
Import String OperatorMethods.

(** X14: String names the three operators differently and gives the one
    name invalid to every other value, the sentinel included. *)
Theorem String_names (op op' : Operator) :
  (String op = "invalid"%string <->
   op <> moveto /\ op <> lineto /\ op <> cubeto) /\
  (String op = String op' -> String op <> "invalid"%string -> op = op').
Proof.
  unfold String, moveto, lineto, cubeto. split.
  - destruct (Z.eqb_spec op 1), (Z.eqb_spec op 2), (Z.eqb_spec op 3);
      split; intros H; try discriminate; try lia; reflexivity.
  - destruct (Z.eqb_spec op 1), (Z.eqb_spec op 2), (Z.eqb_spec op 3),
      (Z.eqb_spec op' 1), (Z.eqb_spec op' 2), (Z.eqb_spec op' 3);
      intros H1 H2; try discriminate; try congruence.
Qed.

End OperatorFacts.

(* ===================================================================== *)
(** ** Recording, then replay *)
(* ===================================================================== *)

Section RecordThenRender.

Context {Image Color : Type}.
Variable Draw :
  vector.Rasterizer -> Image -> image.Rectangle -> Color -> image.Point -> Image.
Variable Bounds : Image -> image.Rectangle.

Lemma composite_all_closed (x y : float) (col : Color) (es : list Entry) :
  Forall (fun e => Closed e = true) es ->
  forall im,
    composite_all Draw x y col es im
    = fold_left (fun im e => composite Draw x y col e im) es im.
Proof.
  unfold composite_all.
  induction 1 as [|e es He _ IH]; intros im; cbn [fold_left]; [reflexivity|].
  rewrite He. apply IH.
Qed.




Lemma canvas_result_in_world (r : Rasterizer) (res : result Image unit) :
  canvas_result (in_world r res) = res.
Proof. destruct res as [[] im|p im]; reflexivity. Qed.

(** X17: Render of entries put one after the other is Render of the first
    ones followed, when that did not panic, by Render of the others on
    the image it left; a panic in the first ones is the panic of the
    whole, with the image as it was at that point. *)
Theorem Render_of_appended (r : Rasterizer) (es1 es2 : list Entry) (im : Image)
    (x y : float) (col : Color) :
  canvas_result (Render Draw x y col (mkWorld (set_Entries (es1 ++ es2) r) im))
  = match canvas_result (Render Draw x y col (mkWorld (set_Entries es1 r) im)) with
    | Ok _ im1 =>
        canvas_result (Render Draw x y col (mkWorld (set_Entries es2 r) im1))
    | Panic p im1 => Panic p im1
    end.
Proof.
  rewrite !Render_run, !canvas_result_in_world. cbn [Entries set_Entries].
  rewrite entries_effect_app.
  destruct (entries_effect Draw x y col es1 im) as [[] im1|p im1];
    [|reflexivity].
  rewrite Render_run, canvas_result_in_world. reflexivity.
Qed.

(** X18: in Render the number of arguments is checked before the
    operator. A segment whose count is not 6 for a cube or not 2 for any
    other operator, the sentinel included, panics with the count and the
    operator; the panic for an unsupported operator is raised only for a
    segment of exactly two arguments whose operator is none of the three. *)
Theorem replay_panic_kinds (e : Entry) (p : Segment) (vr : vector.Rasterizer)
    (w : World Image) :
  (len (Args p) <> (if Op p =? cubeto then 6 else 2) ->
   replay_segment e p vr w = Panic (InvalidArgCount (len (Args p)) (Op p)) w) /\
  (len (Args p) = 2 -> Op p <> moveto -> Op p <> lineto -> Op p <> cubeto ->
   replay_segment e p vr w = Panic (UnsupportedOp (Op p)) w) /\
  (forall q, replay_segment e p vr w = Panic (UnsupportedOp q) w ->
             q = Op p /\ len (Args p) = 2).
Proof.
  rewrite replay_segment_run. unfold wellformed, segment_panic.
  unfold moveto, lineto, cubeto.
  destruct (Z.eqb_spec (Op p) 3) as [H3|H3], (Z.eqb_spec (Op p) 1) as [H1|H1],
    (Z.eqb_spec (Op p) 2) as [H2|H2];
    destruct (Z.eqb_spec (len (Args p)) 6) as [H6|H6],
      (Z.eqb_spec (len (Args p)) 2) as [L2|L2];
    cbn [andb orb negb];
    repeat split; try congruence; try lia;
    intros; try congruence; try lia;
    match goal with
    | H : Panic _ _ = Panic _ _ |- _ => injection H as H; try congruence
    | _ => idtac
    end.
Qed.

End RecordThenRender.

(* ===================================================================== *)
(** ** NaN and the shape functions *)
(* ===================================================================== *)

Lemma is_nan_Prim2SF (a : float) : Prim2SF a = S754_nan -> Float64.is_nan a = true.
Proof.
  intros Ha. destruct (Float64.is_nan a) eqn:Hn; [reflexivity|].
  apply Float64Facts.ordered_spec in Hn. congruence.
Qed.

Lemma sub_nan_l (a b : float) :
  Float64.is_nan a = true -> Float64.is_nan (a - b)%float = true.
Proof.
  intros Ha. apply is_nan_Prim2SF.
  rewrite sub_spec, (Prim2SF_nan a Ha). reflexivity.
Qed.

Lemma sub_nan_r (a b : float) :
  Float64.is_nan b = true -> Float64.is_nan (a - b)%float = true.
Proof.
  intros Hb. apply is_nan_Prim2SF.
  rewrite sub_spec, (Prim2SF_nan b Hb). destruct (Prim2SF a); reflexivity.
Qed.

Lemma mul_nan_r (a b : float) :
  Float64.is_nan b = true -> Float64.is_nan (a * b)%float = true.
Proof.
  intros Hb. apply is_nan_Prim2SF.
  rewrite mul_spec, (Prim2SF_nan b Hb). destruct (Prim2SF a); reflexivity.
Qed.

Lemma eqb_nan (a b : float) :
  Float64.is_nan a = true -> PrimFloat.eqb a b = false.
Proof. intros Ha. rewrite FloatAxioms.eqb_spec, (Prim2SF_nan a Ha). reflexivity. Qed.

Lemma closed_entry_poisoned (c : Command) (cs : list Command) (px py : float) :
  Float64.is_nan (fst (first_pair c)) = true ->
  ~ box_contains (set_Closed true (absorb_all cs (begin c))) px py.
Proof.
  intros Hx (Hlo & _). cbn [MinX set_Closed] in Hlo.
  destruct (begin_nan_box c Hx) as [E0 E1].
  destruct (absorb_all_nan_box cs (begin c)) as [F0 _];
    [rewrite E0; exact Hx|rewrite E1; exact Hx|].
  unfold Float64.le in Hlo. rewrite leb_nan_l in Hlo; [discriminate|].
  rewrite F0, E0. exact Hx.
Qed.

(** X19: NaN gets past the guards of the shape functions. A square whose
    width is NaN is not taken for a square of width <= 0, and a line from
    a point to itself is not taken for an empty one when its x is NaN:
    each records a closed entry, whose box contains no point. *)
Theorem nan_passes_shape_guards (es : list Entry) (q x y oY width : float)
    (capped : bool) :
  no_open_entry es -> Float64.is_nan q = true ->
  (exists e,
     raster.SquareAt x y q (buffered es) = Ok tt (buffered (es ++ [e])) /\
     Closed e = true /\ forall px py, ~ box_contains e px py) /\
  (exists e,
     raster.LineTo capped q oY q oY width (buffered es)
       = Ok tt (buffered (es ++ [e])) /\
     Closed e = true /\ forall px py, ~ box_contains e px py).
Proof.
  intros Hno Hq. split.
  - pose proof (shape_buffered (Square x y q) es Hno) as Hrun.
    unfold shape_entries in Hrun. cbn [degenerate] in Hrun.
    rewrite (leb_nan_l q 0 Hq) in Hrun. cbn [shape_commands closed_entry] in Hrun.
    eexists. split; [exact Hrun|]. split; [reflexivity|].
    intros px py. apply closed_entry_poisoned. cbn [first_pair fst].
    apply sub_nan_r, mul_nan_r, Hq.
  - pose proof (shape_buffered (Line capped q oY q oY width) es Hno) as Hrun.
    unfold shape_entries in Hrun. cbn [degenerate] in Hrun.
    rewrite (eqb_nan q q Hq) in Hrun. cbn [andb] in Hrun.
    cbn [shape_commands app closed_entry] in Hrun.
    eexists. split; [exact Hrun|]. split; [reflexivity|].
    intros px py. apply closed_entry_poisoned. cbn [first_pair fst].
    apply sub_nan_l, Hq.
Qed.

Lemma nan_passes_shape_guards_witness :
  exists e,
    raster.SquareAt 0 0 nan (buffered []) = Ok tt (buffered ([] ++ [e])) /\
    Closed e = true /\ forall px py, ~ box_contains e px py.
Proof.
  exact (proj1 (nan_passes_shape_guards [] nan 0 0 0 1 false I eq_refl)).
Defined.

(* ===================================================================== *)
(** ** The properties of call sequences on sample recorders *)
(* ===================================================================== *)

Lemma every_box_stays_exact_witness :
  Forall entry_exact
    (Entries (buffered [Demo.square;
                        mkEntry false [mkSegment moveto [1; 2]%float;
                                       mkSegment lineto [3; 0]%float] 1 3 0 2])).
Proof.
  refine (every_box_stays_exact
            [CallCmd (CmdMoveTo (-5) (-5)); CallCmd (CmdLineTo 5 (-5));
             CallCmd (CmdLineTo 5 5); CallCmd (CmdLineTo (-5) 5); CallClose;
             CallCmd (CmdMoveTo 1 2); CallCmd (CmdLineTo 3 0)]
            [] _ _ _ eq_refl).
  - repeat constructor.
  - constructor.
Defined.

Lemma only_last_entry_open_witness :
  only_last_open
    (Entries (buffered [Demo.square;
                        mkEntry false [mkSegment moveto [1; 2]%float] 1 1 2 2])).
Proof.
  refine (only_last_entry_open [CallClose; CallCmd (CmdMoveTo 1 2)]
            [set_Closed false Demo.square] _ _ eq_refl).
  constructor.
Defined.

Lemma closed_entries_are_kept_witness :
  exists tail,
    Entries (buffered [Demo.square; Demo.curve]) = [Demo.square] ++ tail.
Proof.
  exact (closed_entries_are_kept
           [CallClose; CallCmd (CmdMoveTo 1 2);
            CallCmd (CmdCubeTo 0 0 5 6 2 2.5); CallClose]
           [Demo.square] _ eq_refl eq_refl).
Defined.


Lemma shape_never_panics_witness :
  exists r',
    draw_shape (Line true 0 0 10 0 2)
      (buffered [mkEntry false [mkSegment moveto [1; 2]%float] 1 1 2 2])
      = Ok tt r' /\
    no_open_entry (Entries r').
Proof.
  destruct (shape_never_panics (Line true 0 0 10 0 2)
              (buffered [mkEntry false [mkSegment moveto [1; 2]%float] 1 1 2 2]))
    as (r' & Hrun & _ & Hclosed & _).
  exists r'. split; [exact Hrun|]. apply Hclosed; reflexivity.
Defined.

Lemma String_names_witness :
  OperatorMethods.String bogus = OperatorMethods.String (-7).
Proof.
  pose proof (proj2 (proj1 (OperatorFacts.String_names bogus bogus))) as H0.
  pose proof (proj2 (proj1 (OperatorFacts.String_names (-7) bogus))) as H7.
  rewrite H0, H7; [reflexivity| |]; repeat split; discriminate.
Defined.

Lemma replay_panic_kinds_witness :
  replay_segment Demo.broken (mkSegment bogus [1; 2; 3]%float)
    (vector.NewRasterizer 4 3) (mkWorld (buffered [Demo.broken]) Log.blank)
  = Panic (InvalidArgCount 3 bogus) (mkWorld (buffered [Demo.broken]) Log.blank).
Proof.
  refine (proj1 (replay_panic_kinds Demo.broken (mkSegment bogus [1; 2; 3]%float)
                   (vector.NewRasterizer 4 3)
                   (mkWorld (buffered [Demo.broken]) Log.blank)) _).
  discriminate.
Defined.
